(** * Text chunking and context packing of the Qdrant client scripts

    A shallow embedding of

    - [chunk_text] of [scripts/document_loader.py] and its copy in
      [scripts/load_documents.py],
    - the context-assembly loop of [retrieve_for_llm_context] of
      [scripts/retriever.py],
    - the two [load_documents], of [scripts/document_loader.py] and of
      [scripts/load_documents.py], against a client that records what it
      is sent, and
    - [build_filter] and the result loop of [retrieve_documents] of
      [scripts/retriever.py],

    together with the properties the specification states about them and
    further properties read off the code.

    A Python [str] is a sequence of code points, modelled as a list of
    numbers; Python integers are unbounded, modelled as [Z].  The [while]
    loop of [chunk_text] is run with fuel, so that a run that never leaves
    the loop is visible as [OutOfFuel] for every amount of fuel. *)

From Stdlib Require Import String Ascii.
From Stdlib Require Import ZArith NArith List Bool Lia.
Import ListNotations.
Local Open Scope Z_scope.

(** ** Python strings *)

Module Py.

(** A string is the list of its code points. *)
Definition str := list N.

(** A literal, written as a Rocq string. *)
Definition lit (s : string) : str :=
  map N_of_ascii (list_ascii_of_string s).
Arguments lit s%_string.

(** [len(s)] *)
Definition len (s : str) : Z := Z.of_nat (length s).

(** The exceptions that matter here.  [ValueError] is what the scripts
    raise for an invalid argument (see [load_documents]). *)
Inductive exn := IndexError | ValueError.

(** The result of running a function that may raise, or loop. *)
Inductive outcome (A : Type) :=
| Returned (a : A)
| Raised (e : exn)
| OutOfFuel.
Arguments Returned {A} a.
Arguments Raised {A} e.
Arguments OutOfFuel {A}.

(** [s[i]] for an integer [i]: negative indices count from the end, and an
    index outside [-len(s) .. len(s)-1] raises [IndexError] ([None]). *)
Definition index (s : str) (i : Z) : option N :=
  let j := if i <? 0 then i + len s else i in
  if (0 <=? j) && (j <? len s) then nth_error s (Z.to_nat j) else None.

(** The bound adjustment of a slice with step 1: a negative bound counts
    from the end, and both are clamped to [0 .. n]. *)
Definition adjust (n i : Z) : Z :=
  if i <? 0 then Z.max (i + n) 0 else Z.min i n.

(** [s[lo:hi]] *)
Definition slice (s : str) (lo hi : Z) : str :=
  let lo' := adjust (len s) lo in
  let hi' := adjust (len s) hi in
  firstn (Z.to_nat (hi' - lo')) (skipn (Z.to_nat lo') s).

(** [c.isspace()] for a single code point: the white space of Unicode as
    CPython tabulates it. *)
Definition isspace (c : N) : bool :=
  ((9 <=? c) && (c <=? 13) || (28 <=? c) && (c <=? 32)
   || (c =? 133) || (c =? 160) || (c =? 5760)
   || (8192 <=? c) && (c <=? 8202)
   || (c =? 8232) || (c =? 8233) || (c =? 8239) || (c =? 8287)
   || (c =? 12288))%N.

Fixpoint lstrip (s : str) : str :=
  match s with
  | [] => []
  | c :: s' => if isspace c then lstrip s' else s
  end.

Definition rstrip (s : str) : str := rev (lstrip (rev s)).

(** [s.strip()] *)
Definition strip (s : str) : str := rstrip (lstrip s).

(** [range(a, stop, -1)]: a, a-1, ..., stop+1. *)
Definition range_down (a stop : Z) : list Z :=
  map (fun k => a - Z.of_nat k) (seq 0 (Z.to_nat (a - stop))).

(** ["".join(l)] *)
Definition join (l : list str) : str := concat l.

End Py.

Import Py.

(** ** [chunk_text] *)

(** The variables of the [while] loop of [chunk_text]. *)
Record state := { start : Z; chunks : list str }.

Definition init : state := {| start := 0; chunks := [] |}.

(** *** [scripts/document_loader.py] *)

Module DocumentLoader.

Definition DEFAULT_CHUNK_SIZE : Z := 512.
Definition DEFAULT_CHUNK_OVERLAP : Z := 128.

(** [c in '.!?\n'] for a one-character string [c]. *)
Definition sentence_end (c : N) : bool :=
  ((c =? 46) || (c =? 33) || (c =? 63) || (c =? 10))%N.

(** The condition of the inner [if]:
    [text[i] in '.!?\n' and (i+1 >= len(text) or text[i+1].isspace())],
    evaluated left to right; [None] is an [IndexError]. *)
Definition boundary_at (text : str) (i : Z) : option bool :=
  match index text i with
  | None => None
  | Some c =>
      if sentence_end c then
        if i + 1 >=? len text then Some true
        else match index text (i + 1) with
             | None => None
             | Some c' => Some (isspace c')
             end
      else Some false
  end.

(** The [for] loop over the candidate positions: the first boundary found
    sets [end] to one past it and leaves the loop; with no boundary [end]
    keeps its value. *)
Fixpoint snap (text : str) (e : Z) (candidates : list Z) : exn + Z :=
  match candidates with
  | [] => inr e
  | i :: rest =>
      match boundary_at text i with
      | None => inl IndexError
      | Some true => inr (i + 1)
      | Some false => snap text e rest
      end
  end.

(** The value of [end] when the chunk is appended. *)
Definition chunk_end (text : str) (chunk_size start : Z) : exn + Z :=
  let e := Z.min (start + chunk_size) (len text) in
  if e <? len text
  then snap text e (range_down (e - 1) (Z.max (start + chunk_size / 2) start))
  else inr e.

(** One pass through the body of the [while] loop. *)
Definition body (text : str) (chunk_size overlap : Z) (st : state) : exn + state :=
  match chunk_end text chunk_size (start st) with
  | inl e => inl e
  | inr e =>
      inr {| start := e - overlap;
             chunks := chunks st ++ [strip (slice text (start st) e)] |}
  end.

(** [while start < len(text): ...; return chunks] *)
Fixpoint loop (fuel : nat) (text : str) (chunk_size overlap : Z) (st : state)
  : outcome (list str) :=
  if start st <? len text then
    match fuel with
    | O => OutOfFuel
    | S fuel' =>
        match body text chunk_size overlap st with
        | inl e => Raised e
        | inr st' => loop fuel' text chunk_size overlap st'
        end
    end
  else Returned (chunks st).

(** The state after at most [n] passes through the loop body. *)
Fixpoint run (n : nat) (text : str) (chunk_size overlap : Z) (st : state)
  : exn + state :=
  match n with
  | O => inr st
  | S n' =>
      if start st <? len text then
        match body text chunk_size overlap st with
        | inl e => inl e
        | inr st' => run n' text chunk_size overlap st'
        end
      else inr st
  end.

(** The windows [(start, end)] of the chunks appended by at most [n]
    passes, in order. *)
Fixpoint windows (n : nat) (text : str) (chunk_size overlap : Z) (s : Z)
  : list (Z * Z) :=
  match n with
  | O => []
  | S n' =>
      if s <? len text then
        match chunk_end text chunk_size s with
        | inl _ => []
        | inr e => (s, e) :: windows n' text chunk_size overlap (e - overlap)
        end
      else []
  end.

(** The chunk appended for a window: [text[start:end].strip()]. *)
Definition window_text (text : str) (w : Z * Z) : str :=
  strip (slice text (fst w) (snd w)).


(** [chunk_text(text, chunk_size, overlap)] *)
Definition chunk_text (fuel : nat) (text : str) (chunk_size overlap : Z)
  : outcome (list str) :=
  if len text <=? chunk_size then Returned [text]
  else loop fuel text chunk_size overlap init.

End DocumentLoader.

(** *** [scripts/load_documents.py]

    The command-line loader carries its own copy of the function. *)

Module LoadDocuments.

Definition DEFAULT_CHUNK_SIZE : Z := 512.
Definition DEFAULT_CHUNK_OVERLAP : Z := 128.

Definition sentence_end (c : N) : bool :=
  ((c =? 46) || (c =? 33) || (c =? 63) || (c =? 10))%N.

Definition boundary_at (text : str) (i : Z) : option bool :=
  match index text i with
  | None => None
  | Some c =>
      if sentence_end c then
        if i + 1 >=? len text then Some true
        else match index text (i + 1) with
             | None => None
             | Some c' => Some (isspace c')
             end
      else Some false
  end.

Fixpoint snap (text : str) (e : Z) (candidates : list Z) : exn + Z :=
  match candidates with
  | [] => inr e
  | i :: rest =>
      match boundary_at text i with
      | None => inl IndexError
      | Some true => inr (i + 1)
      | Some false => snap text e rest
      end
  end.

Definition chunk_end (text : str) (chunk_size start : Z) : exn + Z :=
  let e := Z.min (start + chunk_size) (len text) in
  if e <? len text
  then snap text e (range_down (e - 1) (Z.max (start + chunk_size / 2) start))
  else inr e.

Definition body (text : str) (chunk_size overlap : Z) (st : state) : exn + state :=
  match chunk_end text chunk_size (start st) with
  | inl e => inl e
  | inr e =>
      inr {| start := e - overlap;
             chunks := chunks st ++ [strip (slice text (start st) e)] |}
  end.

Fixpoint loop (fuel : nat) (text : str) (chunk_size overlap : Z) (st : state)
  : outcome (list str) :=
  if start st <? len text then
    match fuel with
    | O => OutOfFuel
    | S fuel' =>
        match body text chunk_size overlap st with
        | inl e => Raised e
        | inr st' => loop fuel' text chunk_size overlap st'
        end
    end
  else Returned (chunks st).

Definition chunk_text (fuel : nat) (text : str) (chunk_size overlap : Z)
  : outcome (list str) :=
  if len text <=? chunk_size then Returned [text]
  else loop fuel text chunk_size overlap init.

End LoadDocuments.

(** ** The context assembly of [retrieve_for_llm_context] *)

Module Retriever.

(** The payload of a search result, as far as the function reads it: the
    text that ["source"] formats to, when the key is present. *)
Record payload := { source : option str }.

(** A document as [retrieve_documents] builds it.  Each field holds the
    text the f-string writes for the value; a field that is [None] is a
    key that the dictionary does not have. *)
Record doc := {
  doc_id : option str;
  doc_payload : option payload;
  doc_text : option str
}.

Definition CHARS_PER_TOKEN : Z := 4.

(** [doc.get("payload", {}).get("source", "Unknown source")] *)
Definition source_of (d : doc) : str :=
  match doc_payload d with
  | Some p => match source p with
              | Some s => s
              | None => lit "Unknown source"
              end
  | None => lit "Unknown source"
  end.

(** [doc.get("id", "Unknown ID")] *)
Definition id_of (d : doc) : str :=
  match doc_id d with
  | Some i => i
  | None => lit "Unknown ID"
  end.

Definition nl : str := [10%N].

(** [f"Document ID: {doc_id}\nSource: {source}\nContent: {text}\n\n"] *)
Definition doc_context (d : doc) (text : str) : str :=
  lit "Document ID: " ++ id_of d ++ nl ++ lit "Source: " ++ source_of d
    ++ nl ++ lit "Content: " ++ text ++ nl ++ nl.

(** The [for] loop over the documents; [break] ends the recursion. *)
Fixpoint assemble (docs : list doc) (token_budget used_chars : Z)
    (context : list str) : list str :=
  match docs with
  | [] => context
  | d :: rest =>
      match doc_text d with
      | None => assemble rest token_budget used_chars context
      | Some text =>
          let dc := doc_context d text in
          if used_chars + len dc <=? token_budget then
            assemble rest token_budget (used_chars + len dc) (context ++ [dc])
          else
            let remaining_chars := token_budget - used_chars in
            if remaining_chars >? 100 then
              context ++ [slice dc 0 (remaining_chars - 3) ++ lit "..."]
            else context
      end
  end.

(** The formatted entries of the documents that have a text, in the order
    of the documents. *)
Fixpoint entries (docs : list doc) : list str :=
  match docs with
  | [] => []
  | d :: rest =>
      match doc_text d with
      | None => entries rest
      | Some text => doc_context d text :: entries rest
      end
  end.

(** [retrieve_for_llm_context], from the retrieved documents on: [docs] is
    what [retrieve_documents] has returned.  The specification calls this
    part [pack]. *)
Definition retrieve_for_llm_context (docs : list doc) (max_tokens : Z)
  : outcome str :=
  let token_budget := max_tokens * CHARS_PER_TOKEN in
  Returned (join (assemble docs token_budget 0 [])).

End Retriever.

(** ** What the loop of [chunk_text] keeps *)

Module ChunkInvariant.
Import DocumentLoader.

(** What a pass leaves known about the end [e] of its window: it was cut at
    a sentence boundary, or it is the end of the text, or no boundary lies
    in the upper half of the window that ends at [e]. *)
Definition settled (text : str) (chunk_size e : Z) : Prop :=
  boundary_at text (e - 1) = Some true \/
  e = len text \/
  (forall i, e - chunk_size + chunk_size / 2 < i < e ->
             boundary_at text i = Some false).

(** The values [start] takes: 0 before the first pass, and afterwards
    [overlap] before the end of a window. *)
Definition reached (text : str) (chunk_size overlap s : Z) : Prop :=
  s = 0 \/
  (1 <= s + overlap <= len text /\ settled text chunk_size (s + overlap)).

(** The characters of a window before [strip]: [text[start:end]]. *)
Definition window_slice (text : str) (w : Z * Z) : str :=
  slice text (fst w) (snd w).

End ChunkInvariant.

(** ** Views of the retrieved documents *)

Module RetrieverViews.
Import Retriever.

(** ["text" in doc] *)
Definition has_text (d : doc) : bool :=
  match doc_text d with
  | Some _ => true
  | None => false
  end.

End RetrieverViews.

(** ** Dictionaries, points and the client *)

From Stdlib Require DecimalString DecimalNat DecimalZ.

Module PyDict.

(** The values the dictionaries of the loaders hold: the scalars of JSON
    without floats.  Lists and objects as values are outside the model. *)
Inductive value :=
| VNone
| VBool (b : bool)
| VInt (z : Z)
| VStr (s : str).

(** A dictionary with string keys, in insertion order. *)
Definition dict := list (str * value).

Definition str_eq_dec : forall a b : str, {a = b} + {a <> b} :=
  list_eq_dec N.eq_dec.

(** [d.get(k)]; [None] when the key is absent, so that [k in d] is
    [get k d <> None]. *)
Fixpoint get (k : str) (d : dict) : option value :=
  match d with
  | [] => None
  | (k', v) :: d' => if str_eq_dec k k' then Some v else get k d'
  end.

(** [d[k] = v]: an existing key keeps its place, a new key goes last. *)
Fixpoint set (k : str) (v : value) (d : dict) : dict :=
  match d with
  | [] => [(k, v)]
  | (k', v') :: d' =>
      if str_eq_dec k k' then (k, v) :: d' else (k', v') :: set k v d'
  end.

(** [d.update(other)], on a copy of [d]. *)
Definition update (d other : dict) : dict :=
  fold_left (fun acc kv => set (fst kv) (snd kv) acc) other d.

(** [str(n)] for a natural number. *)
Definition decimal (n : nat) : str :=
  lit (DecimalString.NilEmpty.string_of_uint (Nat.to_uint n)).

(** [str(z)] for an integer. *)
Definition decimal_Z (z : Z) : str :=
  lit (DecimalString.NilEmpty.string_of_int (Z.to_int z)).

(** [str(v)] *)
Definition str_of (v : value) : str :=
  match v with
  | VNone => lit "None"
  | VBool true => lit "True"
  | VBool false => lit "False"
  | VInt z => decimal_Z z
  | VStr s => s
  end.

End PyDict.

Module Client.
Import PyDict.

(** The fields of a point: the arguments of
    [PointStruct(id=..., payload=..., vector=...)]. *)
Record point := {
  point_id : str;
  point_payload : dict;
  point_vector : dict
}.

(** The batches that calls of [client.add] have sent, oldest first. *)
Definition uploads := list (list point).

(** The client, as far as the loaders see it: given the batches sent so
    far and a new batch, [add] returns ([true]) or raises ([false]). *)
Definition client := uploads -> list point -> bool.

(** What ends a loader early.  [ValidationError] is what a class of the
    client library raises for arguments it refuses. *)
Inductive failure :=
| Builtin (e : exn)
| TypeError
| ValidationError
| UploadError.

Inductive stop := Raise (f : failure) | Hang.

(** How a call of a loader ends. *)
Inductive ending (A : Type) :=
| Done (a : A)
| Fails (f : failure)
| Hangs.
Arguments Done {A} a.
Arguments Fails {A} f.
Arguments Hangs {A}.

End Client.

(** ** [load_documents] of [scripts/document_loader.py] *)

Module DocumentLoaderLoad.
Import PyDict Client.

(** The variables of the two nested loops, and what the client was sent. *)
Record progress := {
  all_points : list point;
  all_chunk_ids : list str;
  sent : uploads
}.

(** [str(doc_id)] when the document has one chunk, else
    [f"{doc_id}_{chunk_idx}"]. *)
Definition chunk_id (doc_id : str) (total chunk_idx : nat) : str :=
  if Nat.eqb total 1 then doc_id
  else doc_id ++ lit "_" ++ decimal chunk_idx.

(** [meta.copy()] updated with the five keys of the chunk. *)
Definition chunk_meta (meta : dict) (doc_id : str) (total chunk_idx : nat)
    (chunk : str) : dict :=
  update meta
    [(lit "doc_id", VStr doc_id);
     (lit "chunk_idx", VInt (Z.of_nat chunk_idx));
     (lit "total_chunks", VInt (Z.of_nat total));
     (lit "text", VStr chunk);
     (lit "text_len", VInt (len chunk))].

(** [PointStruct(id=..., payload=..., vector=...)].  The class belongs to
    the client library and is not part of the scripts: [valid] says which
    arguments it accepts, and for the others it raises [ValidationError]
    ([None]). *)
Definition PointStruct (valid : point -> bool) (id : str)
    (payload vector : dict) : option point :=
  let p := {| point_id := id; point_payload := payload;
              point_vector := vector |} in
  if valid p then Some p else None.

(** The inner loop, [for chunk_idx, chunk in enumerate(chunks)], from
    [chunk_idx] on; [total] is [len(chunks)].  The result is the state when
    the loop ends or is left by an exception. *)
Fixpoint add_chunks (valid : point -> bool) (cl : client) (batch_size : Z)
    (meta : dict) (doc_id : str) (total : nat) (chunks : list str)
    (chunk_idx : nat) (st : progress) : progress * option stop :=
  match chunks with
  | [] => (st, None)
  | chunk :: rest =>
      let ids := all_chunk_ids st ++ [chunk_id doc_id total chunk_idx] in
      match PointStruct valid (chunk_id doc_id total chunk_idx)
              (chunk_meta meta doc_id total chunk_idx chunk)
              [(lit "dense", VNone)] with
      | None =>
          ({| all_points := all_points st; all_chunk_ids := ids;
              sent := sent st |},
           Some (Raise ValidationError))
      | Some point =>
          let points := all_points st ++ [point] in
          if Z.of_nat (length points) >=? batch_size then
            if cl (sent st) points then
              add_chunks valid cl batch_size meta doc_id total rest
                (S chunk_idx)
                {| all_points := []; all_chunk_ids := ids;
                   sent := sent st ++ [points] |}
            else
              ({| all_points := points; all_chunk_ids := ids;
                  sent := sent st |},
               Some (Raise UploadError))
          else
            add_chunks valid cl batch_size meta doc_id total rest
              (S chunk_idx)
              {| all_points := points; all_chunk_ids := ids;
                 sent := sent st |}
      end
  end.

(** The outer loop, over [zip(documents, metadata, ids)]. *)
Fixpoint load_each (fuel : nat) (valid : point -> bool) (cl : client)
    (chunk_size chunk_overlap batch_size : Z)
    (items : list (str * dict * str)) (st : progress)
  : progress * option stop :=
  match items with
  | [] => (st, None)
  | (doc, meta, doc_id) :: rest =>
      match DocumentLoader.chunk_text fuel doc chunk_size chunk_overlap with
      | OutOfFuel => (st, Some Hang)
      | Raised e => (st, Some (Raise (Builtin e)))
      | Returned chunks =>
          match add_chunks valid cl batch_size meta doc_id (length chunks)
                  chunks 0 st with
          | (st', Some s) => (st', Some s)
          | (st', None) =>
              load_each fuel valid cl chunk_size chunk_overlap batch_size
                rest st'
          end
      end
  end.

Definition start_progress : progress :=
  {| all_points := []; all_chunk_ids := []; sent := [] |}.

(** [load_documents(documents, metadata, ids, client, collection_name,
    chunk_size, chunk_overlap, batch_size)], with a client at hand.
    [ids] holds the identifiers as [str] writes them; [uuid4 k] is the
    text of the [k]-th identifier that [uuid.uuid4()] gives; [valid] is
    what [PointStruct] accepts.  Each call of [chunk_text] gets [fuel].
    The result is how the call ends, and the batches the client was
    sent. *)
Definition load_documents (fuel : nat) (uuid4 : nat -> str)
    (valid : point -> bool)
    (documents : list str) (metadata : option (list dict))
    (ids : option (list str)) (cl : client)
    (chunk_size chunk_overlap batch_size : Z)
  : ending (list str) * uploads :=
  match
    match metadata with
    | None => Some (map (fun _ => []) documents)
    | Some m =>
        if Nat.eqb (length m) (length documents) then Some m else None
    end
  with
  | None => (Fails (Builtin ValueError), [])
  | Some metadata =>
      match
        match ids with
        | None => Some (map uuid4 (seq 0 (length documents)))
        | Some i =>
            if Nat.eqb (length i) (length documents) then Some i else None
        end
      with
      | None => (Fails (Builtin ValueError), [])
      | Some ids =>
          match load_each fuel valid cl chunk_size chunk_overlap batch_size
                  (combine (combine documents metadata) ids)
                  start_progress with
          | (st, Some (Raise f)) => (Fails f, sent st)
          | (st, Some Hang) => (Hangs, sent st)
          | (st, None) =>
              match all_points st with
              | [] => (Done (all_chunk_ids st), sent st)
              | _ :: _ =>
                  if cl (sent st) (all_points st)
                  then (Done (all_chunk_ids st), sent st ++ [all_points st])
                  else (Fails UploadError, sent st)
              end
          end
      end
  end.

(** A [PointStruct] that refuses the vector the loader passes,
    [{"dense": None}], whatever the identifier and the payload. *)
Definition refuses_empty_vector (valid : point -> bool) : Prop :=
  forall id payload,
    valid {| point_id := id; point_payload := payload;
             point_vector := [(lit "dense", VNone)] |} = false.

End DocumentLoaderLoad.

(** ** [load_documents] of [scripts/load_documents.py] *)

Module LoadDocumentsLoad.
Import PyDict Client.

(** A point of this loader: the dictionary with the keys ["id"],
    ["payload"] and ["document"]. *)
Record entry := {
  entry_id : str;
  entry_payload : dict;
  entry_document : str
}.

(** The batches that calls of [client.add] have stored, oldest first. *)
Definition store := list (list entry).

(** The client: given what is stored and a new batch, [add] stores it and
    returns ([true]) or raises ([false]). *)
Definition add_client := store -> list entry -> bool.

(** The variables of the loops, what is stored, and the number of
    identifiers taken from [uuid.uuid4()].  The counter [total_chunks] and
    the clock are only written to the log and are left out. *)
Record progress := {
  all_doc_ids : list str;
  batch_points : list entry;
  stored : store;
  uuids_used : nat
}.

(** The truth value of an optional string: [None] and [""] are false. *)
Definition truthy (s : option str) : bool :=
  match s with
  | Some (_ :: _) => true
  | _ => false
  end.

(** [doc_id] when the document has one chunk, else [f"{doc_id}_{i}"]. *)
Definition chunk_id (doc_id : str) (total i : nat) : str :=
  if Nat.eqb total 1 then doc_id else doc_id ++ lit "_" ++ decimal i.

(** The loop over [metadata_fields]. *)
Fixpoint collect (fields : list str) (text_field : str) (doc metadata : dict)
  : dict :=
  match fields with
  | [] => metadata
  | field :: rest =>
      match get field doc with
      | Some v =>
          if str_eq_dec field text_field
          then collect rest text_field doc metadata
          else collect rest text_field doc (set field v metadata)
      | None => collect rest text_field doc metadata
      end
  end.

(** The metadata of a document: the chosen fields, then ["doc_id"] and
    ["source"]. *)
Definition doc_metadata (metadata_fields : option (list str))
    (text_field : str) (doc : dict) (doc_id : str) : dict :=
  let metadata :=
    match metadata_fields with
    | Some (f :: fs) => collect (f :: fs) text_field doc []
    | _ => []
    end in
  set (lit "source")
      (match get (lit "source") doc with
       | Some v => v
       | None => VStr (lit "unknown")
       end)
      (set (lit "doc_id") (VStr doc_id) metadata).

Definition make_entry (metadata : dict) (doc_id : str) (total i : nat)
    (chunk : str) : entry :=
  {| entry_id := chunk_id doc_id total i;
     entry_payload :=
       update metadata
         [(lit "chunk_idx", VInt (Z.of_nat i));
          (lit "total_chunks", VInt (Z.of_nat total));
          (lit "text", VStr chunk);
          (lit "text_len", VInt (len chunk))];
     entry_document := chunk |}.

(** [try: client.add(...) except Exception: ...] and then
    [batch_points = []]. *)
Definition upload (cl : add_client) (st : progress) (batch : list entry)
  : progress :=
  {| all_doc_ids := all_doc_ids st;
     batch_points := [];
     stored := if cl (stored st) batch then stored st ++ [batch]
               else stored st;
     uuids_used := uuids_used st |}.

(** The inner loop, [for i, chunk in enumerate(chunks)], from [i] on. *)
Fixpoint add_chunks (cl : add_client) (batch_size : Z) (metadata : dict)
    (doc_id : str) (total : nat) (chunks : list str) (i : nat)
    (st : progress) : progress :=
  match chunks with
  | [] => st
  | chunk :: rest =>
      let points := batch_points st ++ [make_entry metadata doc_id total i chunk] in
      let st' :=
        if Z.of_nat (length points) >=? batch_size
        then upload cl st points
        else {| all_doc_ids := all_doc_ids st; batch_points := points;
                stored := stored st; uuids_used := uuids_used st |} in
      add_chunks cl batch_size metadata doc_id total rest (S i) st'
  end.

(** The outer loop, [for doc in documents]. *)
Fixpoint load_each (fuel : nat) (uuid4 : nat -> str) (cl : add_client)
    (text_field : str) (id_field : option str)
    (metadata_fields : option (list str))
    (chunk_size chunk_overlap batch_size : Z)
    (documents : list dict) (st : progress) : progress * option stop :=
  match documents with
  | [] => (st, None)
  | doc :: rest =>
      match get text_field doc with
      | None =>
          load_each fuel uuid4 cl text_field id_field metadata_fields
            chunk_size chunk_overlap batch_size rest st
      | Some text =>
          let given :=
            if truthy id_field
            then match id_field with
                 | Some f => get f doc
                 | None => None
                 end
            else None in
          let doc_id :=
            match given with
            | Some v => str_of v
            | None => uuid4 (uuids_used st)
            end in
          let st1 :=
            {| all_doc_ids := all_doc_ids st ++ [doc_id];
               batch_points := batch_points st;
               stored := stored st;
               uuids_used := match given with
                             | Some _ => uuids_used st
                             | None => S (uuids_used st)
                             end |} in
          let metadata := doc_metadata metadata_fields text_field doc doc_id in
          match text with
          | VStr text =>
              match LoadDocuments.chunk_text fuel text chunk_size chunk_overlap with
              | OutOfFuel => (st1, Some Hang)
              | Raised e => (st1, Some (Raise (Builtin e)))
              | Returned chunks =>
                  load_each fuel uuid4 cl text_field id_field metadata_fields
                    chunk_size chunk_overlap batch_size rest
                    (add_chunks cl batch_size metadata doc_id
                       (length chunks) chunks 0 st1)
              end
          | _ => (st1, Some (Raise TypeError))
          end
      end
  end.

Definition start_progress : progress :=
  {| all_doc_ids := []; batch_points := []; stored := []; uuids_used := 0 |}.

(** [load_documents(client, documents, collection_name, text_field,
    id_field, metadata_fields, chunk_size, chunk_overlap, batch_size)].
    [collection_names] is what [client.get_collections()] lists; a text
    that is not a string makes [len(text)] in [chunk_text] raise
    [TypeError].  The result is how the call ends, and what the client has
    stored. *)
Definition load_documents (fuel : nat) (uuid4 : nat -> str)
    (collection_names : list str) (cl : add_client)
    (documents : list dict) (collection_name text_field : str)
    (id_field : option str) (metadata_fields : option (list str))
    (chunk_size chunk_overlap batch_size : Z)
  : ending (list str) * store :=
  if in_dec str_eq_dec collection_name collection_names then
    match load_each fuel uuid4 cl text_field id_field metadata_fields
            chunk_size chunk_overlap batch_size documents start_progress with
    | (st, Some (Raise f)) => (Fails f, stored st)
    | (st, Some Hang) => (Hangs, stored st)
    | (st, None) =>
        match batch_points st with
        | [] => (Done (all_doc_ids st), stored st)
        | _ :: _ =>
            (Done (all_doc_ids st),
             stored (upload cl st (batch_points st)))
        end
    end
  else (Done [], []).

(** ["text_field" in doc] *)
Definition has_field (field : str) (doc : dict) : bool :=
  match get field doc with
  | Some _ => true
  | None => false
  end.

(** What every stored point looks like. *)
Definition entry_ok (e : entry) : Prop :=
  get (lit "text") (entry_payload e) = Some (VStr (entry_document e)) /\
  get (lit "text_len") (entry_payload e)
    = Some (VInt (len (entry_document e))) /\
  get (lit "source") (entry_payload e) <> None /\
  exists doc_id total i,
    (i < total)%nat /\
    entry_id e = chunk_id doc_id total i /\
    get (lit "doc_id") (entry_payload e) = Some (VStr doc_id) /\
    get (lit "chunk_idx") (entry_payload e) = Some (VInt (Z.of_nat i)) /\
    get (lit "total_chunks") (entry_payload e) = Some (VInt (Z.of_nat total)).

(** Two runs with different clients differ at most in what is stored. *)
Definition same_but_stored (a b : progress) : Prop :=
  all_doc_ids a = all_doc_ids b /\
  batch_points a = batch_points b /\
  uuids_used a = uuids_used b.

(** What is stored and what waits in the batch is well formed. *)
Definition all_ok (st : progress) : Prop :=
  Forall entry_ok (concat (stored st)) /\ Forall entry_ok (batch_points st).

End LoadDocumentsLoad.

(** ** [build_filter] and the results of [retrieve_documents] *)

Module Filters.
Import PyDict.

(** The dictionary under ["match"], as far as it is read: its ["value"],
    when it has one. *)
Record match_dict := { match_value : option value }.

(** A condition of a filter dictionary, as far as it is read: the values
    under ["key"], ["match"] and ["range"], each when present. *)
Record condition := {
  cond_key : option value;
  cond_match : option match_dict;
  cond_range : option dict
}.

(** A filter dictionary: the lists under ["must"], ["should"] and
    ["must_not"], each when present. *)
Record filter_dict := {
  must : option (list condition);
  should : option (list condition);
  must_not : option (list condition)
}.

(** A [FieldCondition] with a [MatchValue] for the match, and a
    [FieldCondition] with the [Range] made of [range_dict], each as the
    record of its arguments. *)
Inductive field_condition :=
| MatchCondition (key v : value)
| RangeCondition (key : value) (range_dict : dict).

(** The classes [MatchValue], [Range] and [FieldCondition] belong to the
    client library and are not part of the scripts.  What they accept is
    given here: [match_valid key v] for a match on [v] under [key],
    [range_valid key range_dict] for a range; for other arguments they
    raise [ValidationError]. *)
Record library := {
  match_valid : value -> value -> bool;
  range_valid : value -> dict -> bool
}.

(** The [Filter] made of [filter_args]: a clause that was not set is
    [None]. *)
Record Filter := {
  filter_must : option (list field_condition);
  filter_should : option (list field_condition);
  filter_must_not : option (list field_condition)
}.

(** What [build_filter] can raise: [KeyError] for
    [condition["match"]["value"]] on a dictionary without ["value"], and
    the [ValidationError] of the library classes. *)
Inductive filter_error :=
| KeyError (k : str)
| ValidationError.

(** The loop over the conditions of one clause, appending to
    [conditions]. *)
Fixpoint build_conditions (lib : library) (cs : list condition)
    (conditions : list field_condition)
  : filter_error + list field_condition :=
  match cs with
  | [] => inr conditions
  | c :: rest =>
      match cond_key c with
      | None => build_conditions lib rest conditions
      | Some key =>
          match cond_match c with
          | Some m =>
              match match_value m with
              | Some v =>
                  if match_valid lib key v
                  then build_conditions lib rest
                         (conditions ++ [MatchCondition key v])
                  else inl ValidationError
              | None => inl (KeyError (lit "value"))
              end
          | None =>
              match cond_range c with
              | Some range_dict =>
                  if range_valid lib key range_dict
                  then build_conditions lib rest
                         (conditions ++ [RangeCondition key range_dict])
                  else inl ValidationError
              | None => build_conditions lib rest conditions
              end
          end
      end
  end.

(** One pass of the loop over the three filter types: the entry of
    [filter_args], if any. *)
Definition build_clause (lib : library) (clause : option (list condition))
  : filter_error + option (list field_condition) :=
  match clause with
  | None => inr None
  | Some cs =>
      match build_conditions lib cs [] with
      | inl e => inl e
      | inr [] => inr None
      | inr (c :: conditions) => inr (Some (c :: conditions))
      end
  end.

(** [build_filter(filter_dict)] *)
Definition build_filter (lib : library) (d : filter_dict)
  : filter_error + Filter :=
  match build_clause lib (must d) with
  | inl e => inl e
  | inr m =>
      match build_clause lib (should d) with
      | inl e => inl e
      | inr s =>
          match build_clause lib (must_not d) with
          | inl e => inl e
          | inr n =>
              inr {| filter_must := m; filter_should := s;
                     filter_must_not := n |}
          end
      end
  end.

(** A condition that the loop turns into a field condition: it has a key,
    and a match or a range. *)
Definition usable (c : condition) : bool :=
  match cond_key c, cond_match c, cond_range c with
  | Some _, Some _, _ => true
  | Some _, None, Some _ => true
  | _, _, _ => false
  end.

(** A filter dictionary with a function applied to each of its lists of
    conditions. *)
Definition on_clauses (f : list condition -> list condition)
    (d : filter_dict) : filter_dict :=
  {| must := option_map f (must d);
     should := option_map f (should d);
     must_not := option_map f (must_not d) |}.

(** A condition without its ["range"], when it has a ["match"]. *)
Definition without_shadowed_range (c : condition) : condition :=
  match cond_match c with
  | Some _ => {| cond_key := cond_key c; cond_match := cond_match c;
                 cond_range := None |}
  | None => c
  end.

(** A search result, as far as [retrieve_documents] reads it. *)
Record result := {
  result_id : value;
  result_payload : option dict
}.

(** The body of the loop over the results: the document built for one
    result.  The fields of the document hold the text that the f-string of
    [retrieve_for_llm_context] writes for the values; the score is never
    read there and is left out. *)
Definition document_of (with_payload : bool) (r : result) : Retriever.doc :=
  match (if with_payload then result_payload r else None) with
  | Some (kv :: payload) =>
      {| Retriever.doc_id := Some (str_of (result_id r));
         Retriever.doc_payload :=
           Some {| Retriever.source :=
                     option_map str_of (get (lit "source") (kv :: payload)) |};
         Retriever.doc_text :=
           option_map str_of (get (lit "text") (kv :: payload)) |}
  | _ =>
      {| Retriever.doc_id := Some (str_of (result_id r));
         Retriever.doc_payload := None;
         Retriever.doc_text := None |}
  end.

(** The documents that [retrieve_documents] returns for the results of the
    query. *)
Definition process_results (with_payload : bool) (results : list result)
  : list Retriever.doc :=
  map (document_of with_payload) results.

End Filters.

(** * Properties *)

(** ** Strings *)

Lemma len_nonneg (s : str) : 0 <= len s.
Proof. unfold len. lia. Qed.

Lemma len_app (s t : str) : len (s ++ t) = len s + len t.
Proof. unfold len. rewrite length_app. lia. Qed.

Lemma lstrip_length (s : str) : (length (lstrip s) <= length s)%nat.
Proof.
  induction s as [|c s IH]; simpl; [lia|].
  destruct (isspace c); simpl; lia.
Qed.

Lemma strip_length (s : str) : (length (strip s) <= length s)%nat.
Proof.
  unfold strip, rstrip.
  rewrite length_rev.
  etransitivity; [apply lstrip_length|].
  rewrite length_rev. apply lstrip_length.
Qed.

Lemma len_strip (s : str) : len (strip s) <= len s.
Proof. unfold len. pose proof (strip_length s). lia. Qed.

(** A slice whose bounds are in order and at most [n] apart has at most [n]
    characters, wherever the bounds lie. *)
Lemma len_slice_le (s : str) (lo hi n : Z) :
  lo < hi -> hi <= lo + n -> len (slice s lo hi) <= n.
Proof.
  intros Hlt Hle. unfold slice, len.
  rewrite length_firstn, length_skipn.
  fold (len s). pose proof (len_nonneg s) as Hs.
  unfold adjust, len in *.
  destruct (Z.ltb_spec lo 0), (Z.ltb_spec hi 0); lia.
Qed.

(** A slice from 0 to a bound inside the string has exactly that length. *)
Lemma len_slice_prefix (s : str) (k : Z) :
  0 <= k <= len s -> len (slice s 0 k) = k.
Proof.
  intros Hk. unfold slice, len in *.
  rewrite length_firstn, length_skipn.
  unfold adjust.
  destruct (Z.ltb_spec k 0); simpl; lia.
Qed.

Lemma in_range_down (a stop i : Z) :
  In i (range_down a stop) <-> stop < i <= a.
Proof.
  unfold range_down. rewrite in_map_iff. split.
  - intros (k & <- & Hk). apply in_seq in Hk. lia.
  - intros Hi. exists (Z.to_nat (a - i)). split; [lia|].
    apply in_seq. lia.
Qed.

(** ** The loop of [chunk_text] *)

Module ChunkFacts.
Import DocumentLoader.

Lemma snap_cases text e cands e' :
  snap text e cands = inr e' ->
  e' = e \/ exists i, In i cands /\ e' = i + 1.
Proof.
  induction cands as [|i rest IH]; simpl.
  - intros [= <-]. now left.
  - destruct (boundary_at text i) as [[|]|]; try discriminate.
    + intros [= <-]. right. exists i. auto.
    + intros H. destruct (IH H) as [->|(j & Hj & ->)]; [now left|].
      right. exists j. auto.
Qed.

(** [end] never passes the end of the text nor [start + chunk_size]. *)
Lemma chunk_end_upper text C s e :
  chunk_end text C s = inr e -> e <= len text /\ e <= s + C.
Proof.
  unfold chunk_end.
  destruct (Z.ltb_spec (Z.min (s + C) (len text)) (len text)) as [Hlt|Hge].
  - intros H. apply snap_cases in H as [->|(i & Hi & ->)]; [lia|].
    apply in_range_down in Hi. lia.
  - intros [= <-]. lia.
Qed.

(** With a positive chunk size the window is never empty. *)
Lemma chunk_end_lower text C s e :
  0 < C -> s < len text -> chunk_end text C s = inr e -> s < e.
Proof.
  unfold chunk_end. intros HC Hs.
  destruct (Z.ltb_spec (Z.min (s + C) (len text)) (len text)) as [Hlt|Hge].
  - intros H. apply snap_cases in H as [->|(i & Hi & ->)]; [lia|].
    apply in_range_down in Hi. lia.
  - intros [= <-]. lia.
Qed.

Lemma body_inr text C O st st' :
  body text C O st = inr st' ->
  exists e, chunk_end text C (start st) = inr e /\
            start st' = e - O /\
            chunks st' = chunks st ++ [strip (slice text (start st) e)].
Proof.
  unfold body. destruct (chunk_end text C (start st)) as [x|e]; [discriminate|].
  intros [= <-]. exists e; auto.
Qed.

(** The invariant rule of the loop: what holds of the first state and is
    kept by the body holds of the state the loop returns from. *)
Lemma loop_invariant (P : state -> Prop) text C O :
  (forall st st', P st -> start st < len text ->
                  body text C O st = inr st' -> P st') ->
  forall fuel st l,
    P st -> loop fuel text C O st = Returned l ->
    exists st', P st' /\ len text <= start st' /\ chunks st' = l.
Proof.
  intros Hstep fuel. induction fuel as [|fuel IH]; intros st l HP; simpl.
  - destruct (Z.ltb_spec (start st) (len text)); [discriminate|].
    intros [= <-]. eauto.
  - destruct (Z.ltb_spec (start st) (len text)) as [Hlt|Hge].
    + destruct (body text C O st) as [x|st'] eqn:Hb; [discriminate|].
      intros H. apply (IH st' l); [eapply Hstep; eassumption | exact H].
    + intros [= <-]. eauto.
Qed.

(** The same rule for the states reached after [n] passes. *)
Lemma run_invariant (P : state -> Prop) text C O :
  (forall st st', P st -> start st < len text ->
                  body text C O st = inr st' -> P st') ->
  forall n st st', P st -> run n text C O st = inr st' -> P st'.
Proof.
  intros Hstep n. induction n as [|n IH]; intros st st' HP; simpl.
  - intros [= <-]. exact HP.
  - destruct (Z.ltb_spec (start st) (len text)) as [Hlt|Hge].
    + destruct (body text C O st) as [x|st1] eqn:Hb; [discriminate|].
      intros H. apply (IH st1 st'); [eapply Hstep; eassumption | exact H].
    + intros [= <-]. exact HP.
Qed.

(** Every chunk the body appends is at most [chunk_size] long. *)
Lemma body_keeps_bound text C O st st' :
  0 < C ->
  Forall (fun c => len c <= C) (chunks st) ->
  start st < len text ->
  body text C O st = inr st' ->
  Forall (fun c => len c <= C) (chunks st').
Proof.
  intros HC HP Hlt Hb.
  apply body_inr in Hb as (e & He & _ & ->).
  apply Forall_app. split; [exact HP|].
  constructor; [|constructor].
  pose proof (chunk_end_upper _ _ _ _ He) as [_ Hup].
  pose proof (chunk_end_lower _ _ _ _ HC Hlt He) as Hlo.
  etransitivity; [apply len_strip|].
  apply len_slice_le; lia.
Qed.

End ChunkFacts.

Module ChunkRuns.
Import DocumentLoader ChunkFacts.

(** Running [n] passes first and the loop afterwards is running the loop
    with [n] more units of fuel. *)
Lemma loop_after_run text C O n :
  forall st st' fuel,
    run n text C O st = inr st' ->
    loop (n + fuel) text C O st = loop fuel text C O st'.
Proof.
  induction n as [|n IH]; intros st st' fuel; simpl.
  - now intros [= <-].
  - destruct (Z.ltb_spec (start st) (len text)) as [Hlt|Hge].
    + destruct (body text C O st) as [x|st1]; [discriminate|].
      apply IH.
    + intros [= <-].
      destruct fuel; simpl;
        destruct (Z.ltb_spec (start st) (len text)); (reflexivity || lia).
Qed.

(** A loop that returns has made at most [fuel] passes. *)
Lemma loop_returned_run text C O fuel :
  forall st l,
    loop fuel text C O st = Returned l ->
    exists st', run fuel text C O st = inr st' /\ chunks st' = l.
Proof.
  induction fuel as [|fuel IH]; intros st l; simpl.
  - destruct (start st <? len text); [discriminate|].
    intros [= <-]. eauto.
  - destruct (start st <? len text).
    + destruct (body text C O st) as [x|st1]; [discriminate|]. apply IH.
    + intros [= <-]. eauto.
Qed.

(** The chunks are the texts of the windows, in order. *)
Lemma run_windows text C O n :
  forall st st',
    run n text C O st = inr st' ->
    chunks st' =
      chunks st ++ map (window_text text) (windows n text C O (start st)).
Proof.
  induction n as [|n IH]; intros st st'; simpl.
  - intros [= <-]. now rewrite app_nil_r.
  - destruct (start st <? len text).
    + destruct (body text C O st) as [x|st1] eqn:Hb; [discriminate|].
      apply body_inr in Hb as (e & He & Hs & Hc).
      intros H. apply IH in H. rewrite H, Hc, Hs, He.
      rewrite <- app_assoc. reflexivity.
    + intros [= <-]. now rewrite app_nil_r.
Qed.



(** After a pass, [start] is at least [overlap] short of the end of the
    text. *)
Lemma body_start_upper text C O st st' :
  body text C O st = inr st' -> start st' <= len text - O.
Proof.
  intros Hb. apply body_inr in Hb as (e & He & -> & _).
  apply chunk_end_upper in He. lia.
Qed.

(** With a positive overlap the loop, once entered, is never left by
    [return]. *)
Lemma loop_never_returns text C O fuel :
  1 <= O ->
  forall st l, start st < len text -> loop fuel text C O st <> Returned l.
Proof.
  intros HO st l Hst H.
  apply (loop_invariant (fun st => start st < len text)) in H
    as (st' & Hlt & Hge & _); [lia| |exact Hst].
  intros st0 st1 _ _ Hb. apply body_start_upper in Hb. lia.
Qed.

Lemma chunk_text_never_returns text C O fuel l :
  1 <= O -> C < len text -> 0 < len text ->
  chunk_text fuel text C O <> Returned l.
Proof.
  intros HO HC Hlen. unfold chunk_text.
  destruct (Z.leb_spec (len text) C); [lia|].
  apply loop_never_returns; simpl; assumption.
Qed.

(** A state whose window ends exactly [overlap] past its start is entered
    again after every pass. *)
Lemma loop_stuck text C O s :
  s < len text -> chunk_end text C s = inr (s + O) ->
  forall fuel cs, loop fuel text C O {| start := s; chunks := cs |} = OutOfFuel.
Proof.
  intros Hs He fuel. induction fuel as [|fuel IH]; intros cs; simpl;
    destruct (Z.ltb_spec s (len text)); try lia; [reflexivity|].
  unfold body. simpl. rewrite He.
  replace (s + O - O) with s by lia. apply IH.
Qed.

(** The only exception the loop can raise is [IndexError]. *)
Lemma loop_raises_index text C O fuel :
  forall st e, loop fuel text C O st = Raised e -> e = IndexError.
Proof.
  induction fuel as [|fuel IH]; intros st e; simpl.
  - destruct (start st <? len text); discriminate.
  - destruct (start st <? len text); [|discriminate].
    unfold body. destruct (chunk_end text C (start st)) as [x|e'] eqn:He.
    + intros [= <-]. unfold chunk_end in He.
      destruct (_ <? _) in He; [|discriminate].
      revert He. generalize (range_down
        (Z.min (start st + C) (len text) - 1)
        (Z.max (start st + C / 2) (start st))).
      intros cands. induction cands as [|i rest IHc]; simpl; [discriminate|].
      destruct (boundary_at text i) as [[|]|]; try discriminate.
      * exact IHc.
      * now intros [= <-].
    + apply IH.
Qed.

End ChunkRuns.

(** ** The claims about [chunk_text] *)

Section ChunkClaims.
Import DocumentLoader ChunkFacts ChunkRuns.

(** C5.  A text no longer than [chunk_size], the empty text included, comes
    back as the single chunk [[text]], unchanged, whatever the overlap. *)
Theorem chunk_text_short_text (fuel : nat) (text : str) (chunk_size overlap : Z) :
  len text <= chunk_size ->
  chunk_text fuel text chunk_size overlap = Returned [text].
Proof.
  intros H. unfold chunk_text.
  destruct (Z.leb_spec (len text) chunk_size); [reflexivity | lia].
Qed.

Lemma chunk_text_short_text_witness :
  len (lit "") <= 10 /\ chunk_text 0 (lit "") 10 2 = Returned [lit ""].
Proof.
  split; [unfold len; simpl; lia|].
  apply (chunk_text_short_text 0 (lit "") 10 2). unfold len; simpl; lia.
Defined.

(** C6.  With [chunk_size > 0] and [0 <= overlap < chunk_size], every chunk
    that [chunk_text] returns is at most [chunk_size] characters long, and
    so is every chunk the loop has appended after any number of passes. *)
Theorem chunk_length_bound (fuel : nat) (text : str) (chunk_size overlap : Z) :
  0 < chunk_size -> 0 <= overlap < chunk_size ->
  (forall l, chunk_text fuel text chunk_size overlap = Returned l ->
             Forall (fun c => len c <= chunk_size) l) /\
  (forall st, run fuel text chunk_size overlap init = inr st ->
              Forall (fun c => len c <= chunk_size) (chunks st)).
Proof.
  intros HC HO.
  assert (Hstep : forall st st',
             Forall (fun c => len c <= chunk_size) (chunks st) ->
             start st < len text ->
             body text chunk_size overlap st = inr st' ->
             Forall (fun c => len c <= chunk_size) (chunks st'))
    by (intros; eapply body_keeps_bound; eassumption).
  split.
  - intros l. unfold chunk_text.
    destruct (Z.leb_spec (len text) chunk_size) as [Hle|Hgt].
    + intros [= <-]. constructor; [exact Hle | constructor].
    + intros H.
      apply (loop_invariant _ _ _ _ Hstep) in H as (st' & HP & _ & <-);
        [exact HP | constructor].
  - intros st H.
    apply (run_invariant
             (fun st => Forall (fun c => len c <= chunk_size) (chunks st))
             _ _ _ Hstep _ init st (Forall_nil _) H).
Qed.

Lemma chunk_length_bound_witness :
  0 < 15 /\ 0 <= 0 < 15 /\
  Forall (fun c => len c <= 15)
         [lit "Hello world."; lit "This is a test"; lit "."].
Proof.
  split; [lia|]. split; [lia|].
  apply (proj1 (chunk_length_bound 5 (lit "Hello world. This is a test.") 15 0
                  ltac:(lia) ltac:(lia))).
  vm_compute. reflexivity.
Defined.

(** C1.  On the four-character text "aaaa" with [chunk_size = 2] and
    [overlap = 1] the loop is never left: after the window that reaches
    the end of the text, [start] is set back to [len(text) - overlap] and
    the same window is taken again, so no amount of fuel gives a result. *)
Theorem chunk_text_positive_overlap_loops :
  forall fuel, chunk_text fuel (lit "aaaa") 2 1 = OutOfFuel.
Proof.
  intros fuel.
  destruct fuel as [|[|[|fuel]]]; try (vm_compute; reflexivity).
  unfold chunk_text.
  change (len (lit "aaaa") <=? 2) with false. cbv iota.
  change (S (S (S fuel))) with (3 + fuel)%nat.
  rewrite (loop_after_run _ _ _ 3 init
             {| start := 3; chunks := [lit "aa"; lit "aa"; lit "aa"] |});
    [|vm_compute; reflexivity].
  apply (loop_stuck (lit "aaaa") 2 1 3); vm_compute; reflexivity.
Qed.

(** C2, the claim refuted: an overlap equal to the chunk size is accepted,
    and the text comes back as one chunk. *)
Lemma chunk_text_accepts_large_overlap :
  10 <= 10 /\
  forall fuel, chunk_text fuel (lit "abc") 10 10 = Returned [lit "abc"].
Proof. split; [lia|]. intros fuel. reflexivity. Qed.

(** C2, amended.  [chunk_text] does not compare [overlap] with
    [chunk_size]: with [overlap >= chunk_size] it never raises the
    invalid-argument error, and a text no longer than [chunk_size] is
    returned as [[text]]. *)
Theorem chunk_text_no_validation (fuel : nat) (text : str) (chunk_size overlap : Z) :
  chunk_size <= overlap ->
  chunk_text fuel text chunk_size overlap <> Raised ValueError /\
  (len text <= chunk_size ->
   chunk_text fuel text chunk_size overlap = Returned [text]).
Proof.
  intros _. unfold chunk_text.
  destruct (Z.leb_spec (len text) chunk_size) as [Hle|Hgt].
  - split; [discriminate | reflexivity].
  - split; [|lia]. intros H. apply loop_raises_index in H. discriminate.
Qed.

Lemma chunk_text_no_validation_witness :
  10 <= 12 /\
  chunk_text 3 (lit "abc") 10 12 <> Raised ValueError /\
  (len (lit "abc") <= 10 -> chunk_text 3 (lit "abc") 10 12 = Returned [lit "abc"]).
Proof.
  split; [lia|].
  apply (chunk_text_no_validation 3 (lit "abc") 10 12). lia.
Defined.

(** C4, the claim refuted: no amount of fuel makes the call return the two
    chunks "Hello world." and "This is a test.". *)
Lemma chunk_text_scenario_1_fails :
  ~ exists fuel,
      chunk_text fuel (lit "Hello world. This is a test.") 15 3 =
      Returned [lit "Hello world."; lit "This is a test."].
Proof.
  intros (fuel & H). revert H.
  apply chunk_text_never_returns; vm_compute; (reflexivity || discriminate).
Qed.

(** C4, amended.  On that input the loop cuts first at the sentence
    boundary after "Hello world." (window 0..12) and starts each following
    window 3 characters before the last cut: the first three chunks it
    appends are "Hello world.", "ld. This is a t" and "a test.". *)
Theorem chunk_text_scenario_1 :
  run 3 (lit "Hello world. This is a test.") 15 3 init =
    inr {| start := 25;
           chunks := [lit "Hello world."; lit "ld. This is a t"; lit "a test."] |}
  /\ windows 3 (lit "Hello world. This is a test.") 15 3 0 =
       [(0, 12); (9, 24); (21, 28)].
Proof. split; vm_compute; reflexivity. Qed.

(** Scenario 2 of the specification. *)
Example chunk_text_scenario_2 :
  chunk_text 0 (lit "short text") 100 10 = Returned [lit "short text"].
Proof. reflexivity. Qed.

(** A window cut at a sentence boundary can be shorter than the overlap; the
    next window then starts before the text, its slice is empty, and the
    same cut is found again. *)
Example short_window_run :
  windows 3 (lit "aaaaaa. aaaaaaaaaaaaaaa") 10 9 0 = [(0, 7); (-2, 7); (-2, 7)]
  /\ run 3 (lit "aaaaaa. aaaaaaaaaaaaaaa") 10 9 init =
       inr {| start := -2; chunks := [lit "aaaaaa."; lit ""; lit ""] |}.
Proof. split; vm_compute; reflexivity. Qed.

End ChunkClaims.

(** ** The two copies of [chunk_text] *)

Section Copies.

Lemma snap_copy text e cands :
  LoadDocuments.snap text e cands = DocumentLoader.snap text e cands.
Proof.
  induction cands as [|i rest IH]; simpl; [reflexivity|].
  change (LoadDocuments.boundary_at text i)
    with (DocumentLoader.boundary_at text i).
  destruct (DocumentLoader.boundary_at text i) as [[|]|]; auto.
Qed.

Lemma chunk_end_copy text C s :
  LoadDocuments.chunk_end text C s = DocumentLoader.chunk_end text C s.
Proof.
  unfold LoadDocuments.chunk_end, DocumentLoader.chunk_end.
  destruct (_ <? _); [apply snap_copy | reflexivity].
Qed.

Lemma body_copy text C O st :
  LoadDocuments.body text C O st = DocumentLoader.body text C O st.
Proof.
  unfold LoadDocuments.body, DocumentLoader.body.
  now rewrite chunk_end_copy.
Qed.

Lemma loop_copy fuel text C O :
  forall st,
    LoadDocuments.loop fuel text C O st = DocumentLoader.loop fuel text C O st.
Proof.
  induction fuel as [|fuel IH]; intros st; simpl; [reflexivity|].
  destruct (start st <? len text); [|reflexivity].
  rewrite body_copy.
  destruct (DocumentLoader.body text C O st); [reflexivity | apply IH].
Qed.

(** C10.  The [chunk_text] of [load_documents.py] and the [chunk_text] of
    [document_loader.py] give the same result on every text, chunk size
    and overlap: the same chunks, the same exception, or both loop. *)
Theorem chunk_text_copies_agree (fuel : nat) (text : str) (chunk_size overlap : Z) :
  LoadDocuments.chunk_text fuel text chunk_size overlap =
  DocumentLoader.chunk_text fuel text chunk_size overlap.
Proof.
  unfold LoadDocuments.chunk_text, DocumentLoader.chunk_text.
  destruct (len text <=? chunk_size); [reflexivity | apply loop_copy].
Qed.

End Copies.

(** ** The context assembly *)

Module PackFacts.
Import Retriever.

Lemma len_join_app (l1 l2 : list str) :
  len (join (l1 ++ l2)) = len (join l1) + len (join l2).
Proof. unfold join. now rewrite concat_app, len_app. Qed.

Lemma len_join_cons (e : str) (l : list str) :
  len (join (e :: l)) = len e + len (join l).
Proof. unfold join. simpl. apply len_app. Qed.

(** A longer prefix of the entries is at least as long. *)
Lemma len_join_firstn_mono (l : list str) :
  forall j k, (j <= k)%nat ->
              len (join (firstn j l)) <= len (join (firstn k l)).
Proof.
  induction l as [|e l IH]; intros j k Hjk.
  - rewrite !firstn_nil. lia.
  - destruct j as [|j]; cbn [firstn].
    + apply len_nonneg.
    + destruct k as [|k]; [lia|]. cbn [firstn].
      rewrite !len_join_cons. specialize (IH j k). lia.
Qed.

(** A formatted entry is never empty: the labels alone are there. *)
Lemma len_doc_context d text : 0 < len (doc_context d text).
Proof.
  unfold doc_context. rewrite len_app.
  pose proof (len_nonneg (id_of d ++ nl ++ lit "Source: " ++ source_of d
                            ++ nl ++ lit "Content: " ++ text ++ nl ++ nl)).
  change (len (lit "Document ID: ")) with 13. lia.
Qed.

(** What the loop leaves in [context]: the entries it had, then the first
    [k] entries of the remaining documents whole, then [tail], which is
    empty or the cut entry number [k]. *)
Lemma assemble_shape docs :
  forall budget used context,
  exists k tail,
    assemble docs budget used context =
      context ++ firstn k (entries docs) ++ tail /\
    (k <= length (entries docs))%nat /\
    ((0 < k)%nat -> used + len (join (firstn k (entries docs))) <= budget) /\
    ((k = length (entries docs) /\ tail = []) \/
     exists e,
       nth_error (entries docs) k = Some e /\
       let remaining := budget - (used + len (join (firstn k (entries docs)))) in
       remaining < len e /\
       tail = if remaining >? 100
              then [slice e 0 (remaining - 3) ++ lit "..."]
              else []).
Proof.
  induction docs as [|d rest IH]; intros budget used context.
  - exists 0%nat, []. simpl. rewrite app_nil_r. repeat split; auto; lia.
  - cbn [assemble entries]. destruct (doc_text d) as [text|]; [|apply IH].
    set (dc := doc_context d text).
    destruct (Z.leb_spec (used + len dc) budget) as [Hfit|Hover].
    + destruct (IH budget (used + len dc) (context ++ [dc]))
        as (k & tail & Heq & Hk & Hsum & Hstop).
      exists (S k), tail. cbn [firstn length nth_error].
      rewrite len_join_cons.
      split; [rewrite Heq, <- app_assoc; reflexivity|].
      split; [lia|].
      split.
      * intros _. destruct k as [|k];
          [change (len (join (firstn 0 (entries rest)))) with 0; lia|].
        specialize (Hsum ltac:(lia)). lia.
      * destruct Hstop as [[-> ->]|(e & He & Hrem & Htail)]; [left; auto|].
        right. exists e. split; [exact He|]. cbv zeta in Hrem, Htail |- *.
        replace (budget - (used + (len dc + len (join (firstn k (entries rest))))))
          with (budget - (used + len dc + len (join (firstn k (entries rest)))))
          by lia.
        auto.
    + exists 0%nat.
      exists (if budget - used >? 100
              then [slice dc 0 (budget - used - 3) ++ lit "..."] else []).
      cbn [firstn length nth_error app]. cbv zeta.
      split; [destruct (budget - used >? 100);
              [reflexivity | now rewrite app_nil_r]|].
      split; [lia|]. split; [lia|].
      right. exists dc. split; [reflexivity|].
      change (len (join [])) with 0.
      replace (budget - (used + 0)) with (budget - used) by lia.
      split; [lia | reflexivity].
Qed.

End PackFacts.

Module PackRuns.
Import Retriever PackFacts.

Lemma len_join_firstn_S (l : list str) :
  forall k e, nth_error l k = Some e ->
              len (join (firstn (S k) l)) = len (join (firstn k l)) + len e.
Proof.
  induction l as [|x l IH]; intros k e.
  - destruct k; discriminate.
  - destruct k as [|k]; cbn [nth_error].
    + intros [= ->]. cbn [firstn]. rewrite len_join_cons.
      change (len (join [])) with 0. lia.
    + intros H. apply IH in H.
      change (firstn (S (S k)) (x :: l)) with (x :: firstn (S k) l).
      change (firstn (S k) (x :: l)) with (x :: firstn k l).
      rewrite !len_join_cons. lia.
Qed.

(** With a budget that is not positive nothing is appended. *)
Lemma assemble_nonpositive docs budget :
  budget <= 0 -> assemble docs budget 0 [] = [].
Proof.
  intros Hb. induction docs as [|d rest IH]; cbn [assemble]; [reflexivity|].
  destruct (doc_text d) as [text|]; [|exact IH].
  pose proof (len_doc_context d text) as Hpos.
  destruct (Z.leb_spec (0 + len (doc_context d text)) budget); [lia|].
  cbv zeta. destruct (Z.gtb_spec (budget - 0) 100); [lia | reflexivity].
Qed.

End PackRuns.

(** ** The claims about the context assembly *)

Section PackClaims.
Import Retriever PackFacts PackRuns.

(** C3.  For [max_tokens > 0] the assembled context has at most
    [max_tokens * 4] characters.  It is made of the first [k] entries
    whole, followed by nothing or by one cut entry: the first
    [remaining - 3] characters of entry number [k] and then "...". *)
Theorem pack_within_budget (docs : list doc) (max_tokens : Z) :
  0 < max_tokens ->
  exists k tail,
    retrieve_for_llm_context docs max_tokens = Returned (join (firstn k (entries docs) ++ tail)) /\
    len (join (firstn k (entries docs) ++ tail)) <= max_tokens * 4 /\
    (tail = [] \/
     exists e remaining,
       nth_error (entries docs) k = Some e /\
       remaining = max_tokens * 4 - len (join (firstn k (entries docs))) /\
       100 < remaining < len e /\
       tail = [slice e 0 (remaining - 3) ++ lit "..."]).
Proof.
  intros Hmt. unfold retrieve_for_llm_context, CHARS_PER_TOKEN.
  destruct (assemble_shape docs (max_tokens * 4) 0 [])
    as (k & tail & Heq & Hk & Hsum & Hstop).
  cbn [app] in Heq. rewrite Heq. cbn [Z.add] in Hsum, Hstop.
  exists k, tail. split; [reflexivity|].
  assert (Hwhole : len (join (firstn k (entries docs))) <= max_tokens * 4).
  { destruct k as [|k]; [change (len (join (firstn 0 (entries docs)))) with 0; lia|].
    apply Hsum. lia. }
  rewrite len_join_app.
  destruct Hstop as [[_ ->]|(e & He & Hrem & Htail)].
  - split; [change (len (join [])) with 0; lia | now left].
  - cbv zeta in Htail.
    destruct (Z.gtb_spec
                (max_tokens * 4 - len (join (firstn k (entries docs)))) 100)
      as [Hbig|Hsmall]; subst tail.
    + split.
      * rewrite len_join_cons, len_app, len_slice_prefix by lia.
        change (len (lit "...")) with 3. change (len (join [])) with 0. lia.
      * right. eexists e, _. repeat split; try reflexivity; auto; lia.
    + split; [change (len (join [])) with 0; lia | now left].
Qed.

Lemma pack_within_budget_witness :
  0 < 10 /\
  exists k tail,
    retrieve_for_llm_context [{| doc_id := Some (lit "a"); doc_payload := None;
             doc_text := Some (lit "hello") |}] 10
      = Returned (join (firstn k
          (entries [{| doc_id := Some (lit "a"); doc_payload := None;
                       doc_text := Some (lit "hello") |}]) ++ tail)) /\
    len (join (firstn k
          (entries [{| doc_id := Some (lit "a"); doc_payload := None;
                       doc_text := Some (lit "hello") |}]) ++ tail)) <= 10 * 4 /\
    (tail = [] \/
     exists e remaining,
       nth_error
         (entries [{| doc_id := Some (lit "a"); doc_payload := None;
                      doc_text := Some (lit "hello") |}]) k = Some e /\
       remaining = 10 * 4 - len (join (firstn k
          (entries [{| doc_id := Some (lit "a"); doc_payload := None;
                       doc_text := Some (lit "hello") |}]))) /\
       100 < remaining < len e /\
       tail = [slice e 0 (remaining - 3) ++ lit "..."]).
Proof.
  split; [lia|].
  apply (pack_within_budget
           [{| doc_id := Some (lit "a"); doc_payload := None;
               doc_text := Some (lit "hello") |}] 10).
  lia.
Defined.

(** C8, the claim refuted: with [max_tokens = 0] the call returns the
    empty string. *)
Lemma pack_accepts_zero_tokens :
  0 <= 0 /\
  retrieve_for_llm_context [{| doc_id := Some (lit "a"); doc_payload := None;
           doc_text := Some (lit "hello") |}] 0 = Returned (lit "").
Proof. split; [lia | vm_compute; reflexivity]. Qed.

(** C8, amended.  [max_tokens] is not checked: with [max_tokens <= 0]
    nothing is raised and the result is the empty string, whatever the
    documents. *)
Theorem pack_nonpositive_tokens (docs : list doc) (max_tokens : Z) :
  max_tokens <= 0 -> retrieve_for_llm_context docs max_tokens = Returned (lit "").
Proof.
  intros Hmt. unfold retrieve_for_llm_context, CHARS_PER_TOKEN.
  rewrite assemble_nonpositive by lia. reflexivity.
Qed.

Lemma pack_nonpositive_tokens_witness :
  -1 <= 0 /\
  retrieve_for_llm_context [{| doc_id := Some (lit "b"); doc_payload := Some {| source := Some (lit "web") |};
           doc_text := Some (lit "world") |}] (-1) = Returned (lit "").
Proof.
  split; [lia|].
  apply (pack_nonpositive_tokens
           [{| doc_id := Some (lit "b");
               doc_payload := Some {| source := Some (lit "web") |};
               doc_text := Some (lit "world") |}] (-1)).
  lia.
Defined.

(** C9.  The context starts with the entries of the first [k] documents
    that have a text, whole and in their order, where [k] counts every
    leading run of entries that fits the budget: whenever the first [K]
    entries together fit, [K <= k].  After them comes nothing, or entry
    number [k] alone, cut; no later entry is ever put in its place. *)
Theorem pack_keeps_rank_order (docs : list doc) (max_tokens : Z) :
  exists k tail,
    retrieve_for_llm_context docs max_tokens = Returned (join (firstn k (entries docs)) ++ tail) /\
    (k <= length (entries docs))%nat /\
    ((0 < k)%nat -> len (join (firstn k (entries docs))) <= max_tokens * 4) /\
    (forall K, (K <= length (entries docs))%nat ->
               len (join (firstn K (entries docs))) <= max_tokens * 4 ->
               (K <= k)%nat) /\
    (tail = lit "" \/
     exists e n, nth_error (entries docs) k = Some e /\
                 tail = slice e 0 n ++ lit "...").
Proof.
  unfold retrieve_for_llm_context, CHARS_PER_TOKEN.
  destruct (assemble_shape docs (max_tokens * 4) 0 [])
    as (k & tail & Heq & Hk & Hsum & Hstop).
  cbn [app] in Heq. rewrite Heq. cbn [Z.add] in Hsum, Hstop.
  exists k, (join tail).
  split; [unfold join; now rewrite concat_app|].
  split; [exact Hk|]. split; [exact Hsum|].
  destruct Hstop as [[-> ->]|(e & He & Hrem & Htail)].
  - split; [auto | now left].
  - cbv zeta in Hrem, Htail. split.
    + intros K HK Hfit.
      destruct (Nat.le_gt_cases K k) as [Hle|Hgt]; [exact Hle|].
      pose proof (len_join_firstn_mono (entries docs) (S k) K Hgt) as Hmono.
      rewrite (len_join_firstn_S _ _ _ He) in Hmono. lia.
    + destruct (_ >? 100) in Htail; subst tail.
      * right. exists e. eexists. split; [exact He|].
        unfold join. simpl. now rewrite app_nil_r.
      * now left.
Qed.

(** A cut entry: with a budget of 120 characters, an entry of 249 characters
    is cut to its first 117 characters and "...". *)
Example pack_cut_entry :
  retrieve_for_llm_context
    [{| doc_id := Some (lit "a"); doc_payload := None;
        doc_text := Some (repeat 120%N 200) |}] 30
  = Returned (lit "Document ID: a" ++ nl ++ lit "Source: Unknown source" ++ nl
                ++ lit "Content: " ++ repeat 120%N 70 ++ lit "...").
Proof. vm_compute. reflexivity. Qed.

(** Scenario 3 of the specification: one entry that does not fit a budget
    of 40 characters, with no more than 100 characters left. *)
Example pack_scenario_3 :
  retrieve_for_llm_context [{| doc_id := Some (lit "a"); doc_payload := None;
           doc_text := Some (repeat 120%N 50) |}] 10 = Returned (lit "").
Proof. vm_compute. reflexivity. Qed.

(** Scenario 4 of the specification: both entries, in their order. *)
Example pack_scenario_4 :
  retrieve_for_llm_context [{| doc_id := Some (lit "a"); doc_payload := None;
           doc_text := Some (lit "hello") |};
        {| doc_id := Some (lit "b"); doc_payload := None;
           doc_text := Some (lit "world") |}] 1000
  = Returned
      (lit "Document ID: a" ++ nl ++ lit "Source: Unknown source" ++ nl
         ++ lit "Content: hello" ++ nl ++ nl
         ++ lit "Document ID: b" ++ nl ++ lit "Source: Unknown source" ++ nl
         ++ lit "Content: world" ++ nl ++ nl).
Proof. vm_compute. reflexivity. Qed.

End PackClaims.


(** ** More about the loop of [chunk_text] *)

Module ChunkSafety.
Import DocumentLoader ChunkFacts ChunkRuns ChunkInvariant.

Lemma index_in_range text i :
  - len text <= i < len text -> index text i <> None.
Proof.
  intros Hi. unfold index.
  destruct (Z.ltb_spec i 0) as [Hneg|Hpos].
  - destruct (Z.leb_spec 0 (i + len text)); [|lia].
    destruct (Z.ltb_spec (i + len text) (len text)); [|lia].
    simpl. apply nth_error_Some. unfold len in *. lia.
  - destruct (Z.leb_spec 0 i); [|lia].
    destruct (Z.ltb_spec i (len text)); [|lia].
    simpl. apply nth_error_Some. unfold len in *. lia.
Qed.

(** Inside the text, and up to [len(text)] positions before it, the test
    for a sentence boundary raises nothing. *)
Lemma boundary_at_in_range text i :
  - len text <= i < len text -> boundary_at text i <> None.
Proof.
  intros Hi. unfold boundary_at.
  destruct (index text i) as [c|] eqn:Hc;
    [|exfalso; revert Hc; apply index_in_range; exact Hi].
  destruct (sentence_end c); [|discriminate].
  destruct (Z.geb_spec (i + 1) (len text)) as [Hge|Hlt]; [discriminate|].
  destruct (index text (i + 1)) as [c'|] eqn:Hc'; [discriminate|].
  exfalso. revert Hc'. apply index_in_range. lia.
Qed.

Lemma range_down_nil a stop : a <= stop -> range_down a stop = [].
Proof.
  intros H. unfold range_down.
  replace (Z.to_nat (a - stop)) with 0%nat by lia. reflexivity.
Qed.

Lemma range_down_cons a stop :
  stop < a -> range_down a stop = a :: range_down (a - 1) stop.
Proof.
  intros H. unfold range_down.
  replace (Z.to_nat (a - stop)) with (S (Z.to_nat (a - 1 - stop))) by lia.
  cbn [seq map]. f_equal; [lia|].
  rewrite <- seq_shift, map_map. apply map_ext. intros k. lia.
Qed.

(** The scan from the top: either no candidate is a boundary, or the
    highest boundary among the candidates is the cut. *)
Lemma snap_range text e0 stop :
  forall n a e',
    Z.to_nat (a - stop) = n ->
    snap text e0 (range_down a stop) = inr e' ->
    (e' = e0 /\ forall j, stop < j <= a -> boundary_at text j = Some false) \/
    (exists i, stop < i <= a /\ e' = i + 1 /\
               boundary_at text i = Some true /\
               forall j, i < j <= a -> boundary_at text j = Some false).
Proof.
  induction n as [|n IH]; intros a e' Hn.
  - rewrite range_down_nil by lia. simpl. intros [= <-].
    left. split; [reflexivity|]. intros j Hj. lia.
  - rewrite range_down_cons by lia. simpl.
    destruct (boundary_at text a) as [[|]|] eqn:Ha; try discriminate.
    + intros [= <-]. right. exists a.
      split; [lia|]. split; [reflexivity|]. split; [exact Ha|].
      intros j Hj. lia.
    + intros H. apply IH in H; [|lia].
      destruct H as [[-> Hall]|(i & Hi & -> & Htrue & Hall)].
      * left. split; [reflexivity|]. intros j Hj.
        destruct (Z.eq_dec j a) as [->|]; [exact Ha | apply Hall; lia].
      * right. exists i.
        split; [lia|]. split; [reflexivity|]. split; [exact Htrue|].
        intros j Hj.
        destruct (Z.eq_dec j a) as [->|]; [exact Ha | apply Hall; lia].
Qed.

Lemma snap_raises text e0 cands x :
  snap text e0 cands = inl x ->
  exists i, In i cands /\ boundary_at text i = None.
Proof.
  induction cands as [|i rest IH]; simpl; [discriminate|].
  destruct (boundary_at text i) as [[|]|] eqn:Hi; try discriminate.
  - intros H. destruct (IH H) as (j & Hj & Hnone). exists j. auto.
  - intros _. exists i. auto.
Qed.

Section ValidParameters.
Variables (text : str) (chunk_size overlap : Z).
Hypothesis Hsize : 0 < chunk_size.
Hypothesis Hoverlap : 0 <= overlap < chunk_size.
Hypothesis Hlong : chunk_size < len text.

Lemma half_nonneg : 0 <= chunk_size / 2.
Proof. apply Z.div_pos; lia. Qed.

(** From a start the loop reaches, computing [end] raises nothing. *)
Lemma chunk_end_safe s :
  reached text chunk_size overlap s -> s < len text ->
  exists e, chunk_end text chunk_size s = inr e.
Proof.
  intros Hs Hlt.
  destruct (chunk_end text chunk_size s) as [x|e] eqn:He; [|eauto].
  exfalso. unfold chunk_end in He.
  destruct (Z.ltb_spec (Z.min (s + chunk_size) (len text)) (len text));
    [|discriminate].
  apply snap_raises in He as (i & Hi & Hnone).
  apply in_range_down in Hi. pose proof half_nonneg.
  revert Hnone. apply boundary_at_in_range.
  destruct Hs as [->|[Hs _]]; lia.
Qed.

(** The end of a window is inside the text and settled, and it is not
    before the end of the window of the pass before. *)
Lemma chunk_end_settled s e :
  reached text chunk_size overlap s -> s < len text ->
  chunk_end text chunk_size s = inr e ->
  1 <= e <= len text /\ settled text chunk_size e /\
  (1 <= s + overlap <= len text /\ settled text chunk_size (s + overlap) ->
   s + overlap <= e).
Proof.
  intros Hs Hlt He. pose proof half_nonneg as Hhalf.
  pose proof (chunk_end_lower _ _ _ _ Hsize Hlt He) as Hlow.
  unfold chunk_end in He.
  destruct (Z.ltb_spec (Z.min (s + chunk_size) (len text)) (len text))
    as [Hcut|Hend].
  - replace (Z.min (s + chunk_size) (len text)) with (s + chunk_size) in He
      by lia.
    replace (Z.max (s + chunk_size / 2) s) with (s + chunk_size / 2) in He
      by lia.
    apply (snap_range _ _ _ _ _ _ eq_refl) in He.
    destruct He as [[-> Hall]|(i & Hi & -> & Htrue & Hall)].
    + split; [destruct Hs as [->|[Hs _]]; lia|].
      split; [|lia].
      right. right. intros i Hi. apply Hall. lia.
    + assert (Hmono : 1 <= s + overlap <= len text /\
                      settled text chunk_size (s + overlap) ->
                      s + overlap <= i + 1).
      { intros [Hrange Hset].
        destruct (Z.le_gt_cases (s + overlap) (i + 1)) as [|Hback];
          [assumption | exfalso].
        destruct Hset as [Hb|[Hlen|Hnone]].
        - rewrite Hall in Hb by lia. discriminate.
        - lia.
        - rewrite Hnone in Htrue by lia. discriminate. }
      split; [destruct Hs as [->|Hs]; [lia | specialize (Hmono Hs); lia]|].
      split; [|exact Hmono].
      left. replace (i + 1 - 1) with i by lia. exact Htrue.
  - injection He as <-.
    split; [lia|]. split; [right; left; lia|]. lia.
Qed.

Lemma body_reached st st' :
  reached text chunk_size overlap (start st) -> start st < len text ->
  body text chunk_size overlap st = inr st' ->
  reached text chunk_size overlap (start st').
Proof.
  intros Hs Hlt Hb. apply body_inr in Hb as (e & He & Hst & _).
  destruct (chunk_end_settled _ _ Hs Hlt He) as (Hr & Hset & _).
  right. rewrite Hst. replace (e - overlap + overlap) with e by lia. auto.
Qed.

Lemma loop_never_raises fuel :
  forall st x,
    reached text chunk_size overlap (start st) ->
    loop fuel text chunk_size overlap st <> Raised x.
Proof.
  induction fuel as [|fuel IH]; intros st x Hs; simpl.
  - destruct (start st <? len text); discriminate.
  - destruct (Z.ltb_spec (start st) (len text)) as [Hlt|]; [|discriminate].
    destruct (body text chunk_size overlap st) as [y|st'] eqn:Hb.
    + exfalso. unfold body in Hb.
      destruct (chunk_end_safe _ Hs Hlt) as (e & He). rewrite He in Hb.
      discriminate.
    + apply IH. eapply body_reached; eassumption.
Qed.

Lemma windows_ends_increase n :
  forall s i w1 w2,
    reached text chunk_size overlap s ->
    nth_error (windows n text chunk_size overlap s) i = Some w1 ->
    nth_error (windows n text chunk_size overlap s) (S i) = Some w2 ->
    snd w1 <= snd w2.
Proof.
  induction n as [|n IH]; intros s i w1 w2 Hs; simpl.
  - destruct i; discriminate.
  - destruct (Z.ltb_spec s (len text)) as [Hlt|]; [|destruct i; discriminate].
    destruct (chunk_end text chunk_size s) as [x|e] eqn:He;
      [destruct i; discriminate|].
    destruct (chunk_end_settled _ _ Hs Hlt He) as (Hr & Hset & _).
    assert (Hknown : 1 <= e - overlap + overlap <= len text /\
                     settled text chunk_size (e - overlap + overlap))
      by (replace (e - overlap + overlap) with e by lia; auto).
    destruct i as [|i]; [|apply IH; right; exact Hknown].
    cbn [nth_error]. intros [= <-].
    destruct n as [|n]; [discriminate|]. cbn [windows].
    destruct (Z.ltb_spec (e - overlap) (len text)) as [Hlt'|]; [|discriminate].
    destruct (chunk_end text chunk_size (e - overlap)) as [x|e2] eqn:He2;
      [discriminate|].
    intros [= <-]. cbn [snd].
    destruct (chunk_end_settled _ _ (or_intror Hknown) Hlt' He2)
      as (_ & _ & Hmono).
    specialize (Hmono Hknown). lia.
Qed.

End ValidParameters.

End ChunkSafety.

(** ** Further properties of [chunk_text] *)

Module ChunkMore.
Import DocumentLoader ChunkFacts ChunkRuns ChunkInvariant ChunkSafety.

(** From a start inside the text, computing [end] raises nothing. *)
Lemma chunk_end_inside text C s :
  0 < C -> 0 <= s < len text -> exists e, chunk_end text C s = inr e.
Proof.
  intros HC Hs.
  destruct (chunk_end text C s) as [x|e] eqn:He; [|eauto].
  exfalso. unfold chunk_end in He.
  destruct (Z.ltb_spec (Z.min (s + C) (len text)) (len text)); [|discriminate].
  apply snap_raises in He as (i & Hi & Hnone).
  apply in_range_down in Hi.
  revert Hnone. apply boundary_at_in_range. lia.
Qed.

(** Once the loop has returned, more fuel changes nothing. *)
Lemma loop_more_fuel text C O f1 :
  forall f2 st l,
    (f1 <= f2)%nat ->
    loop f1 text C O st = Returned l -> loop f2 text C O st = Returned l.
Proof.
  induction f1 as [|f1 IH]; intros f2 st l Hle; simpl.
  - destruct (start st <? len text) eqn:Hc; [discriminate|].
    intros H. destruct f2; simpl; rewrite Hc; exact H.
  - destruct f2 as [|f2]; [lia|]. simpl.
    destruct (start st <? len text); [|auto].
    destruct (body text C O st) as [x|st']; [discriminate|].
    apply IH. lia.
Qed.

(** Without overlap every pass moves [start] forward, and the loop is left
    after at most [len(text) - start] passes. *)
Lemma loop_returns_without_overlap text C O :
  0 < C -> O <= 0 ->
  forall fuel st,
    0 <= start st -> len text - start st <= Z.of_nat fuel ->
    exists l, loop fuel text C O st = Returned l.
Proof.
  intros HC HO fuel. induction fuel as [|fuel IH]; intros st Hs Hfuel; simpl.
  - destruct (Z.ltb_spec (start st) (len text)); [lia | eauto].
  - destruct (Z.ltb_spec (start st) (len text)) as [Hlt|]; [|eauto].
    destruct (chunk_end_inside text C (start st) HC ltac:(lia)) as (e & He).
    unfold body. rewrite He.
    pose proof (chunk_end_lower _ _ _ _ HC Hlt He).
    apply IH; simpl; lia.
Qed.

(** With [overlap = 0] the windows follow one another and reach the end of
    the text: their slices, put together, are the rest of the text. *)
Lemma windows_tile text C :
  0 < C ->
  forall n s,
    0 <= s <= len text -> len text - s <= Z.of_nat n ->
    concat (map (window_slice text) (windows n text C 0 s)) =
    skipn (Z.to_nat s) text.
Proof.
  intros HC n. induction n as [|n IH]; intros s Hs Hn.
  - simpl. rewrite skipn_all2; [reflexivity | unfold len in *; lia].
  - cbn [windows].
    destruct (Z.ltb_spec s (len text)) as [Hlt|Hge].
    + destruct (chunk_end_inside text C s HC ltac:(lia)) as (e & He).
      rewrite He.
      pose proof (chunk_end_lower _ _ _ _ HC Hlt He) as Hlow.
      pose proof (chunk_end_upper _ _ _ _ He) as [Hup _].
      replace (e - 0) with e by lia.
      cbn [map concat]. rewrite IH by lia.
      unfold window_slice, slice, adjust. cbn [fst snd].
      destruct (Z.ltb_spec s 0); [lia|].
      destruct (Z.ltb_spec e 0); [lia|].
      rewrite !Z.min_l by lia.
      replace (Z.to_nat e) with (Z.to_nat (e - s) + Z.to_nat s)%nat by lia.
      rewrite <- skipn_skipn. apply firstn_skipn.
    + simpl. rewrite skipn_all2; [reflexivity | unfold len in *; lia].
Qed.

Lemma lstrip_idempotent s : lstrip (lstrip s) = lstrip s.
Proof.
  induction s as [|c s IH]; simpl; [reflexivity|].
  destruct (isspace c) eqn:Hc; [exact IH|]. simpl. now rewrite Hc.
Qed.

Lemma lstrip_app_last u c :
  isspace c = false -> lstrip (u ++ [c]) = lstrip u ++ [c].
Proof.
  intros Hc. induction u as [|x u IH]; simpl.
  - now rewrite Hc.
  - destruct (isspace x); [exact IH | reflexivity].
Qed.

(** Stripping the right end does not uncover white space on the left. *)
Lemma lstrip_rstrip s : lstrip s = s -> lstrip (rstrip s) = rstrip s.
Proof.
  destruct s as [|c s]; [reflexivity|]. simpl.
  destruct (isspace c) eqn:Hc.
  - intros H. exfalso.
    pose proof (lstrip_length s) as Hl. rewrite H in Hl. simpl in Hl. lia.
  - intros _. unfold rstrip. simpl.
    rewrite lstrip_app_last by exact Hc.
    rewrite rev_app_distr. simpl. now rewrite Hc.
Qed.

(** [s.strip().strip() == s.strip()] *)
Lemma strip_idempotent s : strip (strip s) = strip s.
Proof.
  unfold strip.
  rewrite (lstrip_rstrip (lstrip s)) by apply lstrip_idempotent.
  unfold rstrip. now rewrite rev_involutive, lstrip_idempotent.
Qed.

Lemma body_keeps_stripped text C O st st' :
  Forall (fun c => strip c = c) (chunks st) ->
  body text C O st = inr st' ->
  Forall (fun c => strip c = c) (chunks st').
Proof.
  intros HP Hb. apply body_inr in Hb as (e & _ & _ & ->).
  apply Forall_app. split; [exact HP|].
  constructor; [apply strip_idempotent | constructor].
Qed.

(** The chunks of a returned list are no longer than a positive
    [chunk_size]. *)
Lemma returned_chunks_bounded fuel text C O l :
  0 < C -> chunk_text fuel text C O = Returned l ->
  Forall (fun c => len c <= C) l.
Proof.
  intros HC. unfold chunk_text.
  destruct (Z.leb_spec (len text) C) as [Hle|Hgt].
  - intros [= <-]. constructor; [exact Hle | constructor].
  - intros H.
    apply (loop_invariant
             (fun st => Forall (fun c => len c <= C) (chunks st)))
      in H as (st' & HP & _ & <-); [exact HP | | constructor].
    intros st st' HP Hlt Hb. eapply body_keeps_bound; eassumption.
Qed.

(** With a valid overlap of at least one character, a text longer than
    [chunk_size] keeps the loop running for ever. *)
Lemma valid_overlap_hangs fuel text C O :
  0 < C -> 1 <= O < C -> C < len text ->
  chunk_text fuel text C O = OutOfFuel.
Proof.
  intros HC HO Hlong.
  destruct (chunk_text fuel text C O) as [l|x|] eqn:H;
    [exfalso | exfalso | reflexivity].
  - revert H. apply chunk_text_never_returns; lia.
  - revert H.
    unfold chunk_text.
    destruct (Z.leb_spec (len text) C); [lia|].
    apply (loop_never_raises text C O HC ltac:(lia) Hlong).
    left. reflexivity.
Qed.

End ChunkMore.

Module ChunkOverlap.
Import DocumentLoader ChunkFacts ChunkRuns ChunkInvariant ChunkSafety ChunkMore.




End ChunkOverlap.

Section OverlapClaim.
Import DocumentLoader ChunkFacts ChunkRuns ChunkInvariant ChunkSafety ChunkMore.
Import ChunkOverlap.




End OverlapClaim.

Section ChunkExtras.
Import DocumentLoader ChunkFacts ChunkRuns ChunkInvariant ChunkSafety ChunkMore.

(** X1.  With [chunk_size > 0] and [0 <= overlap < chunk_size],
    [chunk_text] raises no exception, whatever the text: every index the
    boundary scan reads is inside the text. *)
Theorem chunk_text_valid_never_raises
    (fuel : nat) (text : str) (chunk_size overlap : Z) (x : exn) :
  0 < chunk_size -> 0 <= overlap < chunk_size ->
  chunk_text fuel text chunk_size overlap <> Raised x.
Proof.
  intros HC HO. unfold chunk_text.
  destruct (Z.leb_spec (len text) chunk_size) as [Hle|Hgt]; [discriminate|].
  apply (loop_never_raises text chunk_size overlap HC HO Hgt).
  left. reflexivity.
Qed.

Lemma chunk_text_valid_never_raises_witness :
  0 < 10 /\ 0 <= 9 < 10 /\
  chunk_text 50 (lit "aaaaaa. aaaaaaaaaaaaaaa") 10 9 <> Raised IndexError.
Proof.
  split; [lia|]. split; [lia|].
  apply (chunk_text_valid_never_raises 50 (lit "aaaaaa. aaaaaaaaaaaaaaa")
           10 9 IndexError); lia.
Defined.

(** X2.  With [chunk_size > 0] and [1 <= overlap < chunk_size], a text
    longer than [chunk_size] makes [chunk_text] loop for ever: it neither
    returns nor raises, whatever the fuel. *)
Theorem chunk_text_overlap_never_ends
    (fuel : nat) (text : str) (chunk_size overlap : Z) :
  0 < chunk_size -> 1 <= overlap < chunk_size -> chunk_size < len text ->
  chunk_text fuel text chunk_size overlap = OutOfFuel.
Proof.
  apply valid_overlap_hangs.
Qed.

Lemma chunk_text_overlap_never_ends_witness :
  0 < 15 /\ 1 <= 3 < 15 /\ 15 < len (lit "Hello world. This is a test.") /\
  chunk_text 1000 (lit "Hello world. This is a test.") 15 3 = OutOfFuel.
Proof.
  split; [lia|]. split; [lia|]. split; [vm_compute; reflexivity|].
  apply (chunk_text_overlap_never_ends 1000
           (lit "Hello world. This is a test.") 15 3);
    [lia | lia | vm_compute; reflexivity].
Defined.

(** X3.  With valid parameters the end of the window never moves back from
    one pass to the next, although [start] may. *)
Theorem window_ends_never_decrease
    (n : nat) (text : str) (chunk_size overlap : Z) (i : nat) (w1 w2 : Z * Z) :
  0 < chunk_size -> 0 <= overlap < chunk_size -> chunk_size < len text ->
  nth_error (windows n text chunk_size overlap 0) i = Some w1 ->
  nth_error (windows n text chunk_size overlap 0) (S i) = Some w2 ->
  snd w1 <= snd w2.
Proof.
  intros HC HO Hlong.
  apply (windows_ends_increase text chunk_size overlap HC HO Hlong).
  left. reflexivity.
Qed.

Lemma window_ends_never_decrease_witness :
  0 < 10 /\ 0 <= 9 < 10 /\ 10 < len (lit "aaaaaa. aaaaaaaaaaaaaaa") /\
  snd (0, 7) <= snd (-2, 7).
Proof.
  split; [lia|]. split; [lia|]. split; [vm_compute; reflexivity|].
  apply (window_ends_never_decrease 3 (lit "aaaaaa. aaaaaaaaaaaaaaa") 10 9 0);
    try lia; vm_compute; reflexivity.
Defined.

(** X4.  With [chunk_size > 0] and [overlap <= 0], [chunk_text] returns:
    [len(text)] units of fuel are enough, and more fuel gives the same
    list. *)
Theorem chunk_text_without_overlap_returns
    (text : str) (chunk_size overlap : Z) :
  0 < chunk_size -> overlap <= 0 ->
  exists l, forall fuel,
      len text <= Z.of_nat fuel ->
      chunk_text fuel text chunk_size overlap = Returned l.
Proof.
  intros HC HO. unfold chunk_text.
  destruct (Z.leb_spec (len text) chunk_size) as [Hle|Hgt]; [eauto|].
  destruct (loop_returns_without_overlap text chunk_size overlap HC HO
              (Z.to_nat (len text)) init) as (l & Hl); simpl; try lia.
  exists l. intros fuel Hfuel.
  apply (loop_more_fuel _ _ _ (Z.to_nat (len text))); [lia | exact Hl].
Qed.

Lemma chunk_text_without_overlap_returns_witness :
  0 < 15 /\ 0 <= 0 /\
  exists l, forall fuel,
      len (lit "Hello world. This is a test.") <= Z.of_nat fuel ->
      chunk_text fuel (lit "Hello world. This is a test.") 15 0 = Returned l.
Proof.
  split; [lia|]. split; [lia|].
  apply (chunk_text_without_overlap_returns
           (lit "Hello world. This is a test.") 15 0); lia.
Defined.

(** X5.  With [overlap = 0] the windows cut the text into consecutive
    pieces: the slices of the windows, put together, are the text again,
    and the chunks returned for a text longer than [chunk_size] are these
    slices, each stripped. *)
Theorem windows_without_overlap_cover
    (fuel : nat) (text : str) (chunk_size : Z) :
  0 < chunk_size -> len text <= Z.of_nat fuel ->
  join (map (window_slice text) (windows fuel text chunk_size 0 0)) = text /\
  (chunk_size < len text ->
   chunk_text fuel text chunk_size 0 =
   Returned (map (window_text text) (windows fuel text chunk_size 0 0))).
Proof.
  intros HC Hfuel. split.
  - unfold join. rewrite (windows_tile text chunk_size HC);
      [reflexivity | pose proof (len_nonneg text); lia | lia].
  - intros Hlong. unfold chunk_text.
    destruct (Z.leb_spec (len text) chunk_size); [lia|].
    destruct (loop_returns_without_overlap text chunk_size 0 HC ltac:(lia)
                fuel init) as (l & Hl); simpl; try lia.
    rewrite Hl. f_equal.
    apply loop_returned_run in Hl as (st' & Hrun & <-).
    apply run_windows in Hrun. exact Hrun.
Qed.

Lemma windows_without_overlap_cover_witness :
  0 < 15 /\ len (lit "Hello world. This is a test.") <= Z.of_nat 28 /\
  join (map (window_slice (lit "Hello world. This is a test."))
            (windows 28 (lit "Hello world. This is a test.") 15 0 0))
  = lit "Hello world. This is a test.".
Proof.
  split; [lia|]. split; [vm_compute; discriminate|].
  apply (proj1 (windows_without_overlap_cover 28
                  (lit "Hello world. This is a test.") 15
                  ltac:(lia) ltac:(vm_compute; discriminate))).
Defined.

(** X6.  Every chunk the loop appends is stripped, so every chunk returned
    for a text longer than [chunk_size] is: stripping it again changes
    nothing.  (A text returned whole by the first [return] is not
    stripped.) *)
Theorem loop_chunks_are_stripped
    (n : nat) (text : str) (chunk_size overlap : Z) :
  (forall st, run n text chunk_size overlap init = inr st ->
              Forall (fun c => strip c = c) (chunks st)) /\
  (forall l, chunk_size < len text ->
             chunk_text n text chunk_size overlap = Returned l ->
             Forall (fun c => strip c = c) l).
Proof.
  assert (Hstep : forall st st',
             Forall (fun c => strip c = c) (chunks st) ->
             start st < len text ->
             body text chunk_size overlap st = inr st' ->
             Forall (fun c => strip c = c) (chunks st'))
    by (intros st st' HP _ Hb; eapply body_keeps_stripped; eassumption).
  split.
  - intros st.
    apply (run_invariant (fun st => Forall (fun c => strip c = c) (chunks st))
             _ _ _ Hstep).
    constructor.
  - intros l Hlong. unfold chunk_text.
    destruct (Z.leb_spec (len text) chunk_size); [lia|].
    intros Hret.
    apply (loop_invariant _ _ _ _ Hstep) in Hret as (st' & HP & _ & <-);
      [exact HP | constructor].
Qed.

Lemma loop_chunks_are_stripped_witness :
  15 < len (lit "Hello world. This is a test.") /\
  Forall (fun c => strip c = c)
         [lit "Hello world."; lit "This is a test"; lit "."].
Proof.
  split; [vm_compute; reflexivity|].
  apply (proj2 (loop_chunks_are_stripped 5
                  (lit "Hello world. This is a test.") 15 0)).
  - vm_compute. reflexivity.
  - vm_compute. reflexivity.
Defined.

(** X7.  Chunking is idempotent on its own output: a chunk of a returned
    list, chunked again with the same positive [chunk_size] (and any
    overlap), comes back as the one-element list of itself. *)
Theorem chunk_text_rechunk
    (fuel fuel' : nat) (text c : str) (chunk_size overlap overlap' : Z)
    (l : list str) :
  0 < chunk_size ->
  chunk_text fuel text chunk_size overlap = Returned l ->
  In c l ->
  chunk_text fuel' c chunk_size overlap' = Returned [c].
Proof.
  intros HC Hl Hc.
  pose proof (returned_chunks_bounded _ _ _ _ _ HC Hl) as Hall.
  rewrite Forall_forall in Hall. specialize (Hall c Hc).
  unfold chunk_text.
  destruct (Z.leb_spec (len c) chunk_size); [reflexivity | lia].
Qed.

Lemma chunk_text_rechunk_witness :
  chunk_text 0 (lit "This is a test") 15 3 = Returned [lit "This is a test"].
Proof.
  apply (chunk_text_rechunk 5 0 (lit "Hello world. This is a test.")
           (lit "This is a test") 15 0 3
           [lit "Hello world."; lit "This is a test"; lit "."]).
  - lia.
  - vm_compute. reflexivity.
  - simpl. auto.
Defined.

End ChunkExtras.

(** ** Further properties of the context assembly *)

Module PackMore.
Import Retriever RetrieverViews PackFacts PackRuns.

Lemma entries_filter docs : entries (filter has_text docs) = entries docs.
Proof.
  induction docs as [|d rest IH]; [reflexivity|].
  cbn [filter entries]. unfold has_text at 1.
  destruct (doc_text d) eqn:Hd; [|exact IH].
  cbn [entries]. rewrite Hd. now rewrite IH.
Qed.

Lemma assemble_filter docs :
  forall budget used context,
    assemble (filter has_text docs) budget used context =
    assemble docs budget used context.
Proof.
  induction docs as [|d rest IH]; intros budget used context; [reflexivity|].
  cbn [filter assemble]. unfold has_text at 1.
  destruct (doc_text d) as [text|] eqn:Hd; [|apply IH].
  cbn [assemble]. rewrite Hd. cbv zeta.
  destruct (_ <=? _); [apply IH | reflexivity].
Qed.

Lemma firstn_entries_le (l : list str) k :
  len (join (firstn k l)) <= len (join l).
Proof.
  rewrite <- (firstn_all l) at 2.
  destruct (Nat.le_gt_cases k (length l)) as [Hle|Hgt].
  - apply len_join_firstn_mono. exact Hle.
  - rewrite (firstn_all2 l) by lia. rewrite firstn_all. lia.
Qed.

End PackMore.

Section PackExtras.
Import Retriever RetrieverViews PackFacts PackRuns PackMore.

(** X8.  When all the entries together fit the budget, the context is all
    of them, whole and in order: nothing is cut or left out. *)
Theorem pack_everything_fits (docs : list doc) (max_tokens : Z) :
  len (join (entries docs)) <= max_tokens * 4 ->
  retrieve_for_llm_context docs max_tokens = Returned (join (entries docs)).
Proof.
  intros Hfit. unfold retrieve_for_llm_context, CHARS_PER_TOKEN.
  destruct (assemble_shape docs (max_tokens * 4) 0 [])
    as (k & tail & Heq & Hk & Hsum & Hstop).
  cbn [app] in Heq. rewrite Heq. cbn [Z.add] in Hstop.
  destruct Hstop as [[-> ->]|(e & He & Hrem & _)].
  - now rewrite firstn_all, app_nil_r.
  - exfalso. cbv zeta in Hrem.
    pose proof (len_join_firstn_S _ _ _ He) as HS.
    pose proof (firstn_entries_le (entries docs) (S k)). lia.
Qed.

Lemma pack_everything_fits_witness :
  len (join (entries
         [{| doc_id := Some (lit "a"); doc_payload := None;
             doc_text := Some (lit "hello") |};
          {| doc_id := None; doc_payload := None; doc_text := None |}]))
    <= 20 * 4 /\
  retrieve_for_llm_context
    [{| doc_id := Some (lit "a"); doc_payload := None;
        doc_text := Some (lit "hello") |};
     {| doc_id := None; doc_payload := None; doc_text := None |}] 20
  = Returned (join (entries
      [{| doc_id := Some (lit "a"); doc_payload := None;
          doc_text := Some (lit "hello") |};
       {| doc_id := None; doc_payload := None; doc_text := None |}])).
Proof.
  split; [vm_compute; discriminate|].
  apply (pack_everything_fits
           [{| doc_id := Some (lit "a"); doc_payload := None;
               doc_text := Some (lit "hello") |};
            {| doc_id := None; doc_payload := None; doc_text := None |}] 20).
  vm_compute. discriminate.
Defined.

(** X9.  When the entries do not all fit, at most 100 characters of the
    budget stay unused: the context is at least [max_tokens * 4 - 100]
    characters long. *)
Theorem pack_unused_budget (docs : list doc) (max_tokens : Z) (s : str) :
  max_tokens * 4 < len (join (entries docs)) ->
  retrieve_for_llm_context docs max_tokens = Returned s ->
  max_tokens * 4 - 100 <= len s.
Proof.
  intros Hover. unfold retrieve_for_llm_context, CHARS_PER_TOKEN.
  destruct (assemble_shape docs (max_tokens * 4) 0 [])
    as (k & tail & Heq & Hk & Hsum & Hstop).
  cbn [app] in Heq. rewrite Heq. cbn [Z.add] in Hsum, Hstop.
  intros [= <-]. rewrite len_join_app.
  destruct Hstop as [[-> ->]|(e & He & Hrem & Htail)].
  - rewrite firstn_all. change (len (join [])) with 0. lia.
  - cbv zeta in Hrem, Htail.
    destruct (Z.gtb_spec
                (max_tokens * 4 - len (join (firstn k (entries docs)))) 100)
      as [Hbig|Hsmall]; subst tail.
    + rewrite len_join_cons, len_app, len_slice_prefix by lia.
      change (len (lit "...")) with 3. change (len (join [])) with 0. lia.
    + change (len (join [])) with 0. lia.
Qed.

Lemma pack_unused_budget_witness :
  30 * 4 <
    len (join (entries [{| doc_id := Some (lit "a"); doc_payload := None;
                           doc_text := Some (repeat 120%N 200) |}])) /\
  30 * 4 - 100 <=
    len (lit "Document ID: a" ++ nl ++ lit "Source: Unknown source" ++ nl
           ++ lit "Content: " ++ repeat 120%N 70 ++ lit "...").
Proof.
  split; [vm_compute; reflexivity|].
  apply (pack_unused_budget
           [{| doc_id := Some (lit "a"); doc_payload := None;
               doc_text := Some (repeat 120%N 200) |}] 30).
  - vm_compute. reflexivity.
  - vm_compute. reflexivity.
Defined.

(** X10.  Documents without a ["text"] key play no part: the context is the
    one built from the documents that have a text. *)
Theorem pack_ignores_textless (docs : list doc) (max_tokens : Z) :
  retrieve_for_llm_context (filter has_text docs) max_tokens =
  retrieve_for_llm_context docs max_tokens.
Proof.
  unfold retrieve_for_llm_context. now rewrite assemble_filter.
Qed.

End PackExtras.

(** ** Dictionaries *)

Module DictFacts.
Import PyDict.

Lemma get_set_same k v d : get k (set k v d) = Some v.
Proof.
  induction d as [|[k' v'] d IH]; simpl.
  - destruct (str_eq_dec k k); [reflexivity | contradiction].
  - destruct (str_eq_dec k k') as [Heq|Hne]; simpl.
    + destruct (str_eq_dec k k); [reflexivity | contradiction].
    + destruct (str_eq_dec k k'); [contradiction | exact IH].
Qed.

Lemma get_set_other k k' v d : k <> k' -> get k (set k' v d) = get k d.
Proof.
  intros Hne. induction d as [|[k0 v0] d IH]; simpl.
  - destruct (str_eq_dec k k'); [contradiction | reflexivity].
  - destruct (str_eq_dec k' k0) as [Heq|Hne0]; simpl.
    + subst k0. destruct (str_eq_dec k k'); [contradiction | reflexivity].
    + destruct (str_eq_dec k k0); [reflexivity | exact IH].
Qed.

Lemma N_of_ascii_inj a b : N_of_ascii a = N_of_ascii b -> a = b.
Proof.
  intros H. rewrite <- (ascii_N_embedding a), <- (ascii_N_embedding b).
  now rewrite H.
Qed.

Lemma lit_inj s t : lit s = lit t -> s = t.
Proof.
  unfold lit. intros H.
  rewrite <- (string_of_list_ascii_of_string s),
          <- (string_of_list_ascii_of_string t).
  f_equal. revert H.
  generalize (list_ascii_of_string s) (list_ascii_of_string t).
  intros l. induction l as [|a l IH]; intros [|b l']; simpl;
    try discriminate; [reflexivity|].
  intros [= Hab Hl]. f_equal; [now apply N_of_ascii_inj | now apply IH].
Qed.

End DictFacts.

(** ** [load_documents] of [document_loader.py] *)

Module LoaderRuns.
Import PyDict Client DocumentLoaderLoad DictFacts.

(** A document whose [chunk_text] call does not end stops the outer
    loop. *)
Lemma load_each_stops fuel valid cl chunk_size chunk_overlap batch_size :
  forall items st doc meta doc_id,
    In (doc, meta, doc_id) items ->
    DocumentLoader.chunk_text fuel doc chunk_size chunk_overlap = OutOfFuel ->
    snd (load_each fuel valid cl chunk_size chunk_overlap batch_size items st)
      <> None.
Proof.
  induction items as [|[[d m] i] rest IH]; intros st doc meta doc_id Hin Hhang;
    [contradiction|].
  cbn [load_each].
  destruct (DocumentLoader.chunk_text fuel d chunk_size chunk_overlap)
    as [chunks|e|] eqn:Hd; try (simpl; discriminate).
  destruct (add_chunks valid cl batch_size m i (length chunks) chunks 0 st)
    as [st1 [s|]]; [simpl; discriminate|].
  destruct Hin as [Heq|Hin].
  - injection Heq as -> _ _. rewrite Hhang in Hd. discriminate.
  - eapply IH; eassumption.
Qed.

Lemma in_combine_left {A B} (l : list A) (l' : list B) x :
  length l = length l' -> In x l -> exists y, In (x, y) (combine l l').
Proof.
  revert l'. induction l as [|a l IH]; intros [|b l']; simpl;
    try discriminate; [contradiction|].
  intros [= H] [->|Hin].
  - exists b. now left.
  - destruct (IH l' H Hin) as (y & Hy). exists y. now right.
Qed.

(** When [PointStruct] refuses the vector, the inner loop ends at its
    first chunk, and sends nothing. *)
Lemma add_chunks_refused valid cl batch_size meta doc_id total :
  refuses_empty_vector valid ->
  forall chunks chunk_idx st,
    sent (fst (add_chunks valid cl batch_size meta doc_id total chunks
                 chunk_idx st)) = sent st /\
    match chunks with
    | [] =>
        add_chunks valid cl batch_size meta doc_id total chunks chunk_idx st
        = (st, None)
    | _ :: _ =>
        snd (add_chunks valid cl batch_size meta doc_id total chunks
               chunk_idx st) = Some (Raise ValidationError)
    end.
Proof.
  intros Hvalid chunks idx st. destruct chunks as [|chunk rest].
  - simpl. auto.
  - cbn [add_chunks]. cbv zeta. unfold PointStruct. rewrite Hvalid.
    simpl. auto.
Qed.

(** Then the outer loop sends nothing either, and if it comes to its end
    the state is as at the start. *)
Lemma load_each_refused fuel valid cl chunk_size chunk_overlap batch_size :
  refuses_empty_vector valid ->
  forall items st,
    sent (fst (load_each fuel valid cl chunk_size chunk_overlap batch_size
                 items st)) = sent st /\
    (snd (load_each fuel valid cl chunk_size chunk_overlap batch_size
            items st) = None ->
     fst (load_each fuel valid cl chunk_size chunk_overlap batch_size
            items st) = st).
Proof.
  intros Hvalid. induction items as [|[[doc meta] doc_id] rest IH]; intros st.
  - simpl. auto.
  - cbn [load_each].
    destruct (DocumentLoader.chunk_text fuel doc chunk_size chunk_overlap)
      as [chunks|e|]; try (simpl; split; [reflexivity | discriminate]).
    pose proof (add_chunks_refused valid cl batch_size meta doc_id
                  (length chunks) Hvalid chunks 0 st) as [Hsent Hend].
    destruct chunks as [|chunk more].
    + rewrite Hend. apply IH.
    + destruct (add_chunks valid cl batch_size meta doc_id
                  (length (chunk :: more)) (chunk :: more) 0 st)
        as [st1 stop1].
      simpl in Hsent, Hend. subst stop1. simpl.
      split; [exact Hsent | discriminate].
Qed.

End LoaderRuns.

Section LoaderExtras.
Import PyDict Client DocumentLoaderLoad DictFacts LoaderRuns.
Import ChunkMore.

(** X11.  A list of metadata or of identifiers whose length differs from
    the number of documents is refused with [ValueError] before anything
    is chunked or sent. *)
Theorem load_documents_length_mismatch
    (fuel : nat) (uuid4 : nat -> str) (valid : point -> bool)
    (documents : list str)
    (metadata : option (list dict)) (ids : option (list str)) (cl : client)
    (chunk_size chunk_overlap batch_size : Z) :
  (exists m, metadata = Some m /\ length m <> length documents) \/
  (exists i, ids = Some i /\ length i <> length documents) ->
  load_documents fuel uuid4 valid documents metadata ids cl
    chunk_size chunk_overlap batch_size
  = (Fails (Builtin ValueError), []).
Proof.
  intros H. unfold load_documents.
  destruct metadata as [m|].
  - destruct (Nat.eqb_spec (length m) (length documents)) as [Hm|Hm].
    + destruct H as [(m' & [= <-] & Hne)|(i & -> & Hne)]; [contradiction|].
      destruct (Nat.eqb_spec (length i) (length documents));
        [contradiction | reflexivity].
    + reflexivity.
  - destruct H as [(m' & [=] & _)|(i & -> & Hne)].
    destruct (Nat.eqb_spec (length i) (length documents));
      [contradiction | reflexivity].
Qed.

Lemma load_documents_length_mismatch_witness :
  load_documents 5 decimal (fun _ => true) [lit "one"; lit "two"] None
    (Some [lit "a"]) (fun _ _ => true) 512 128 100
  = (Fails (Builtin ValueError), []).
Proof.
  apply (load_documents_length_mismatch 5 decimal (fun _ => true)
           [lit "one"; lit "two"]
           None (Some [lit "a"]) (fun _ _ => true) 512 128 100).
  right. exists [lit "a"]. split; [reflexivity | simpl; lia].
Defined.

(** X12.  When [PointStruct] refuses the vector [{"dense": None}] that
    the loader gives to every point, [client.add] is never called:
    however the call ends, nothing was sent, and the only list that can
    be returned is the empty one. *)
Theorem load_documents_sends_nothing
    (fuel : nat) (uuid4 : nat -> str) (valid : point -> bool)
    (documents : list str)
    (metadata : option (list dict)) (ids : option (list str)) (cl : client)
    (chunk_size chunk_overlap batch_size : Z) :
  refuses_empty_vector valid ->
  snd (load_documents fuel uuid4 valid documents metadata ids cl
         chunk_size chunk_overlap batch_size) = [] /\
  forall out,
    fst (load_documents fuel uuid4 valid documents metadata ids cl
           chunk_size chunk_overlap batch_size) = Done out ->
    out = [].
Proof.
  intros Hvalid. unfold load_documents.
  destruct (match metadata with
            | None => _ | Some m => _ end) as [m|];
    [|simpl; split; [reflexivity | discriminate]].
  destruct (match ids with
            | None => _ | Some i => _ end) as [i|];
    [|simpl; split; [reflexivity | discriminate]].
  pose proof (load_each_refused fuel valid cl chunk_size chunk_overlap
                batch_size Hvalid (combine (combine documents m) i)
                start_progress) as [Hsent Hend].
  destruct (load_each fuel valid cl chunk_size chunk_overlap batch_size
              (combine (combine documents m) i) start_progress)
    as [st [[f|]|]]; simpl in Hsent, Hend |- *;
    try (split; [exact Hsent | discriminate]).
  rewrite (Hend eq_refl). simpl. split; [reflexivity|].
  intros out [= <-]. reflexivity.
Qed.

Lemma load_documents_sends_nothing_witness :
  snd (load_documents 30 decimal (fun _ => false)
         [lit "Hello world. This is a test."; lit "short"] None
         (Some [lit "a"; lit "b"]) (fun _ _ => true) 15 0 2) = [] /\
  forall out,
    fst (load_documents 30 decimal (fun _ => false)
           [lit "Hello world. This is a test."; lit "short"] None
           (Some [lit "a"; lit "b"]) (fun _ _ => true) 15 0 2) = Done out ->
    out = [].
Proof.
  apply (load_documents_sends_nothing 30 decimal (fun _ => false)
           [lit "Hello world. This is a test."; lit "short"] None
           (Some [lit "a"; lit "b"]) (fun _ _ => true) 15 0 2).
  intros id payload. reflexivity.
Defined.

(** X14.  With [chunk_size > 0] and [1 <= chunk_overlap < chunk_size] (the
    defaults 512 and 128 among them), a single document longer than
    [chunk_size] keeps [load_documents] from ever returning. *)
Theorem load_documents_long_document
    (fuel : nat) (uuid4 : nat -> str) (valid : point -> bool)
    (documents : list str)
    (metadata : option (list dict)) (ids : option (list str)) (cl : client)
    (chunk_size chunk_overlap batch_size : Z) (doc : str) (out : list str) :
  0 < chunk_size -> 1 <= chunk_overlap < chunk_size ->
  In doc documents -> chunk_size < len doc ->
  fst (load_documents fuel uuid4 valid documents metadata ids cl
         chunk_size chunk_overlap batch_size) <> Done out.
Proof.
  intros HC HO Hin Hlong. unfold load_documents.
  destruct (match metadata with
            | None => _ | Some m => _ end) as [m|] eqn:Hm;
    [|simpl; discriminate].
  destruct (match ids with
            | None => _ | Some i => _ end) as [i|] eqn:Hi;
    [|simpl; discriminate].
  assert (Hlm : length documents = length m).
  { destruct metadata as [m'|].
    - destruct (Nat.eqb_spec (length m') (length documents)); [|discriminate].
      injection Hm as <-. auto.
    - injection Hm as <-. now rewrite length_map. }
  assert (Hli : length (combine documents m) = length i).
  { rewrite length_combine, <- Hlm, Nat.min_id.
    destruct ids as [i'|].
    - destruct (Nat.eqb_spec (length i') (length documents)); [|discriminate].
      injection Hi as <-. auto.
    - injection Hi as <-. now rewrite length_map, length_seq. }
  destruct (in_combine_left documents m doc Hlm Hin) as (meta & Hmeta).
  destruct (in_combine_left _ i _ Hli Hmeta) as (doc_id & Hitem).
  pose proof (load_each_stops fuel valid cl chunk_size chunk_overlap batch_size
                _ start_progress doc meta doc_id Hitem
                (valid_overlap_hangs fuel doc chunk_size chunk_overlap
                   HC HO Hlong)) as Hstop.
  destruct (load_each fuel valid cl chunk_size chunk_overlap batch_size
              (combine (combine documents m) i) start_progress)
    as [st [[f|]|]]; simpl in *; try discriminate.
  contradiction.
Qed.

Lemma load_documents_long_document_witness :
  fst (load_documents 1000 decimal (fun _ => true)
         [lit "short"; repeat 97%N 513] None None
         (fun _ _ => true)
         DocumentLoader.DEFAULT_CHUNK_SIZE DocumentLoader.DEFAULT_CHUNK_OVERLAP
         100)
  <> Done [lit "0"; lit "1"].
Proof.
  apply (load_documents_long_document 1000 decimal (fun _ => true)
           [lit "short"; repeat 97%N 513] None None (fun _ _ => true)
           DocumentLoader.DEFAULT_CHUNK_SIZE
           DocumentLoader.DEFAULT_CHUNK_OVERLAP 100 (repeat 97%N 513)).
  - reflexivity.
  - unfold DocumentLoader.DEFAULT_CHUNK_SIZE,
      DocumentLoader.DEFAULT_CHUNK_OVERLAP. lia.
  - right. left. reflexivity.
  - vm_compute. reflexivity.
Defined.

(** X15.  When [PointStruct] refuses the vector [{"dense": None}] and the
    lengths match, a call whose first document is no longer than
    [chunk_size] raises [ValidationError] at its first point, with nothing
    sent. *)
Theorem load_documents_first_point_refused
    (fuel : nat) (uuid4 : nat -> str) (valid : point -> bool)
    (doc : str) (documents : list str)
    (metadata : option (list dict)) (ids : option (list str)) (cl : client)
    (chunk_size chunk_overlap batch_size : Z) :
  refuses_empty_vector valid ->
  len doc <= chunk_size ->
  (forall m, metadata = Some m -> length m = length (doc :: documents)) ->
  (forall i, ids = Some i -> length i = length (doc :: documents)) ->
  load_documents fuel uuid4 valid (doc :: documents) metadata ids cl
    chunk_size chunk_overlap batch_size
  = (Fails ValidationError, []).
Proof.
  intros Hvalid Hshort Hm Hi. unfold load_documents.
  assert (exists meta m, match metadata with
                    | None => Some (map (fun _ => []) (doc :: documents))
                    | Some m0 =>
                        if Nat.eqb (length m0) (length (doc :: documents))
                        then Some m0 else None
                    end = Some (meta :: m))
    as (meta & m & ->).
  { destruct metadata as [m0|].
    - rewrite (Hm m0 eq_refl), Nat.eqb_refl.
      specialize (Hm m0 eq_refl). destruct m0 as [|meta m]; [discriminate|].
      eauto.
    - simpl. eauto. }
  assert (exists doc_id i, match ids with
                    | None => Some (map uuid4 (seq 0 (length (doc :: documents))))
                    | Some i0 =>
                        if Nat.eqb (length i0) (length (doc :: documents))
                        then Some i0 else None
                    end = Some (doc_id :: i))
    as (doc_id & i & ->).
  { destruct ids as [i0|].
    - rewrite (Hi i0 eq_refl), Nat.eqb_refl.
      specialize (Hi i0 eq_refl). destruct i0 as [|doc_id i]; [discriminate|].
      eauto.
    - simpl. eauto. }
  cbn [combine load_each]. unfold DocumentLoader.chunk_text.
  destruct (Z.leb_spec (len doc) chunk_size); [|lia].
  cbn [length add_chunks]. cbv zeta. unfold PointStruct.
  rewrite Hvalid. reflexivity.
Qed.

Lemma load_documents_first_point_refused_witness :
  load_documents 0 decimal (fun _ => false) [lit "one"; lit "two"] None
    (Some [lit "a"; lit "b"]) (fun _ _ => true) 512 128 100
  = (Fails ValidationError, []).
Proof.
  apply (load_documents_first_point_refused 0 decimal (fun _ => false)
           (lit "one") [lit "two"] None (Some [lit "a"; lit "b"])
           (fun _ _ => true) 512 128 100).
  - intros id payload. reflexivity.
  - vm_compute. discriminate.
  - discriminate.
  - intros i [= <-]. reflexivity.
Defined.

End LoaderExtras.

(** ** [load_documents] of [load_documents.py] *)

Module ScriptLoaderFacts.
Import PyDict Client LoadDocumentsLoad DictFacts.

Ltac other_key :=
  let E := fresh in intro E; apply lit_inj in E; discriminate E.

Lemma add_chunks_same cl1 cl2 batch_size metadata doc_id total :
  forall chunks i a b,
    same_but_stored a b ->
    same_but_stored
      (add_chunks cl1 batch_size metadata doc_id total chunks i a)
      (add_chunks cl2 batch_size metadata doc_id total chunks i b).
Proof.
  intros chunks. induction chunks as [|chunk rest IH]; intros i a b Hab;
    [exact Hab|].
  cbn [add_chunks]. cbv zeta. destruct Hab as (H1 & H2 & H3).
  rewrite H2. apply IH.
  destruct (_ >=? _); unfold same_but_stored, upload; simpl; auto.
Qed.

Lemma load_each_same fuel uuid4 cl1 cl2 text_field id_field metadata_fields
    chunk_size chunk_overlap batch_size :
  forall documents a b,
    same_but_stored a b ->
    same_but_stored
      (fst (load_each fuel uuid4 cl1 text_field id_field metadata_fields
              chunk_size chunk_overlap batch_size documents a))
      (fst (load_each fuel uuid4 cl2 text_field id_field metadata_fields
              chunk_size chunk_overlap batch_size documents b)) /\
    snd (load_each fuel uuid4 cl1 text_field id_field metadata_fields
           chunk_size chunk_overlap batch_size documents a) =
    snd (load_each fuel uuid4 cl2 text_field id_field metadata_fields
           chunk_size chunk_overlap batch_size documents b).
Proof.
  induction documents as [|doc rest IH]; intros a b Hab; [simpl; auto|].
  cbn [load_each]. cbv zeta.
  destruct (get text_field doc) as [text|]; [|apply IH; exact Hab].
  pose proof Hab as (H1 & H2 & H3). rewrite H1, H2, H3.
  set (given := if truthy id_field then _ else None).
  set (doc_id := match given with Some v => str_of v | None => _ end).
  set (used := match given with Some _ => _ | None => _ end).
  destruct text as [| | |text];
    try (simpl; split; [repeat split; reflexivity | reflexivity]).
  destruct (LoadDocuments.chunk_text fuel text chunk_size chunk_overlap);
    try (simpl; split; [repeat split; reflexivity | reflexivity]).
  apply IH. apply add_chunks_same. repeat split; reflexivity.
Qed.

(** One identifier is appended for each document that has the text
    field. *)
Lemma load_each_count fuel uuid4 cl text_field id_field metadata_fields
    chunk_size chunk_overlap batch_size :
  forall documents st st',
    load_each fuel uuid4 cl text_field id_field metadata_fields
      chunk_size chunk_overlap batch_size documents st = (st', None) ->
    length (all_doc_ids st') =
    (length (all_doc_ids st)
     + length (filter (has_field text_field) documents))%nat.
Proof.
  assert (Hadd : forall metadata doc_id total chunks i st,
             all_doc_ids (add_chunks cl batch_size metadata doc_id total
                            chunks i st) = all_doc_ids st).
  { intros metadata doc_id total chunks.
    induction chunks as [|c rest IHc]; intros i st; [reflexivity|].
    cbn [add_chunks]. cbv zeta. rewrite IHc.
    destruct (_ >=? _); reflexivity. }
  induction documents as [|doc rest IH]; intros st st'.
  - simpl. intros [= <-]. lia.
  - cbn [load_each filter]. cbv zeta. unfold has_field at 1.
    destruct (get text_field doc) as [text|]; [|apply IH].
    destruct text as [| | |text]; try discriminate.
    destruct (LoadDocuments.chunk_text fuel text chunk_size chunk_overlap);
      try discriminate.
    intros H. apply IH in H. rewrite H, Hadd. cbn [all_doc_ids length].
    rewrite length_app. simpl. lia.
Qed.

Lemma make_entry_ok metadata_fields text_field doc doc_id total i chunk :
  (i < total)%nat ->
  entry_ok (make_entry (doc_metadata metadata_fields text_field doc doc_id)
              doc_id total i chunk).
Proof.
  intros Hi. unfold entry_ok, make_entry, doc_metadata, update.
  cbn [entry_id entry_payload entry_document fold_left fst snd].
  split; [rewrite !get_set_other by other_key; apply get_set_same|].
  split; [apply get_set_same|].
  split; [rewrite !get_set_other by other_key; rewrite get_set_same;
          discriminate|].
  exists doc_id, total, i.
  split; [exact Hi|]. split; [reflexivity|].
  split; [rewrite !get_set_other by other_key; apply get_set_same|].
  split; [rewrite !get_set_other by other_key; apply get_set_same|].
  rewrite !get_set_other by other_key; apply get_set_same.
Qed.

Lemma add_chunks_ok cl batch_size metadata doc_id total :
  (forall i chunk, (i < total)%nat ->
                   entry_ok (make_entry metadata doc_id total i chunk)) ->
  forall chunks i st,
    (i + length chunks <= total)%nat ->
    all_ok st ->
    all_ok (add_chunks cl batch_size metadata doc_id total chunks i st).
Proof.
  intros HP chunks. induction chunks as [|chunk rest IH]; intros i st Hi Hst;
    [exact Hst|].
  cbn [add_chunks]. cbv zeta. cbn [length] in Hi.
  destruct Hst as [Hs Hb].
  assert (Hpts : Forall entry_ok
            (batch_points st ++ [make_entry metadata doc_id total i chunk])).
  { apply Forall_app. split; [exact Hb|].
    constructor; [apply HP; lia | constructor]. }
  apply IH; [lia|].
  destruct (_ >=? _); unfold all_ok, upload; cbn [stored batch_points].
  - split; [|constructor].
    destruct (cl _ _); [|exact Hs].
    rewrite concat_app. simpl. rewrite app_nil_r.
    apply Forall_app. split; assumption.
  - split; assumption.
Qed.

Lemma load_each_ok fuel uuid4 cl text_field id_field metadata_fields
    chunk_size chunk_overlap batch_size :
  forall documents st,
    all_ok st ->
    all_ok (fst (load_each fuel uuid4 cl text_field id_field metadata_fields
                   chunk_size chunk_overlap batch_size documents st)).
Proof.
  induction documents as [|doc rest IH]; intros st Hst; [exact Hst|].
  cbn [load_each]. cbv zeta.
  destruct (get text_field doc) as [text|]; [|apply IH; exact Hst].
  destruct text as [| | |text]; try exact Hst.
  destruct (LoadDocuments.chunk_text fuel text chunk_size chunk_overlap);
    try exact Hst.
  apply IH. apply add_chunks_ok; [|simpl; lia|exact Hst].
  intros i chunk Hi. apply make_entry_ok. exact Hi.
Qed.

(** Whatever ends the call, what was stored is well formed. *)
Lemma stored_entries_ok
    (fuel : nat) (uuid4 : nat -> str) (collection_names : list str)
    (cl : add_client) (documents : list dict) (collection_name text_field : str)
    (id_field : option str) (metadata_fields : option (list str))
    (chunk_size chunk_overlap batch_size : Z) :
  Forall entry_ok
    (concat (snd (load_documents fuel uuid4 collection_names cl documents
                    collection_name text_field id_field metadata_fields
                    chunk_size chunk_overlap batch_size))).
Proof.
  unfold load_documents.
  destruct (in_dec str_eq_dec collection_name collection_names);
    [|constructor].
  pose proof (load_each_ok fuel uuid4 cl text_field id_field metadata_fields
                chunk_size chunk_overlap batch_size documents start_progress)
    as Hok.
  destruct (load_each fuel uuid4 cl text_field id_field metadata_fields
              chunk_size chunk_overlap batch_size documents start_progress)
    as [st stop].
  destruct Hok as [Hs Hb]; [split; constructor|]. simpl in Hs, Hb.
  destruct stop as [[f|]|]; simpl; try exact Hs.
  destruct (batch_points st) as [|p pts] eqn:Hp; simpl; [exact Hs|].
  destruct (cl (stored st) (p :: pts)); [|exact Hs].
  rewrite concat_app. simpl. rewrite app_nil_r.
  apply Forall_app. split; assumption.
Qed.

End ScriptLoaderFacts.

Section ScriptLoaderExtras.
Import PyDict Client LoadDocumentsLoad DictFacts ScriptLoaderFacts.

(** X17.  When the collection is not among those the client lists,
    [load_documents] returns the empty list and stores nothing, whatever
    the documents. *)
Theorem script_load_missing_collection
    (fuel : nat) (uuid4 : nat -> str) (collection_names : list str)
    (cl : add_client) (documents : list dict) (collection_name text_field : str)
    (id_field : option str) (metadata_fields : option (list str))
    (chunk_size chunk_overlap batch_size : Z) :
  ~ In collection_name collection_names ->
  load_documents fuel uuid4 collection_names cl documents collection_name
    text_field id_field metadata_fields chunk_size chunk_overlap batch_size
  = (Done [], []).
Proof.
  intros Hnot. unfold load_documents.
  destruct (in_dec str_eq_dec collection_name collection_names);
    [contradiction | reflexivity].
Qed.

Lemma script_load_missing_collection_witness :
  load_documents 0 decimal [lit "other"] (fun _ _ => true)
    [[(lit "text", VStr (repeat 97%N 600))]] (lit "llm_documents") (lit "text")
    None None 512 128 64
  = (Done [], []).
Proof.
  apply (script_load_missing_collection 0 decimal [lit "other"]
           (fun _ _ => true) [[(lit "text", VStr (repeat 97%N 600))]]
           (lit "llm_documents") (lit "text") None None 512 128 64).
  intros [H|[]]. apply lit_inj in H. discriminate.
Defined.

(** X18.  How [load_documents] ends does not depend on the client's [add]:
    an upload that raises is only logged, so the same identifiers come
    back whether the batches were stored or not. *)
Theorem script_load_ignores_upload_errors
    (fuel : nat) (uuid4 : nat -> str) (collection_names : list str)
    (cl1 cl2 : add_client) (documents : list dict)
    (collection_name text_field : str)
    (id_field : option str) (metadata_fields : option (list str))
    (chunk_size chunk_overlap batch_size : Z) :
  fst (load_documents fuel uuid4 collection_names cl1 documents
         collection_name text_field id_field metadata_fields
         chunk_size chunk_overlap batch_size) =
  fst (load_documents fuel uuid4 collection_names cl2 documents
         collection_name text_field id_field metadata_fields
         chunk_size chunk_overlap batch_size).
Proof.
  unfold load_documents.
  destruct (in_dec str_eq_dec collection_name collection_names);
    [|reflexivity].
  destruct (load_each_same fuel uuid4 cl1 cl2 text_field id_field
              metadata_fields chunk_size chunk_overlap batch_size documents
              start_progress start_progress) as [(H1 & H2 & _) Hstop];
    [repeat split; reflexivity|].
  destruct (load_each fuel uuid4 cl1 text_field id_field metadata_fields
              chunk_size chunk_overlap batch_size documents start_progress)
    as [st1 stop1].
  destruct (load_each fuel uuid4 cl2 text_field id_field metadata_fields
              chunk_size chunk_overlap batch_size documents start_progress)
    as [st2 stop2].
  simpl in H1, H2, Hstop. subst stop2. rewrite H2.
  destruct stop1 as [[f|]|]; simpl; try reflexivity.
  destruct (batch_points st2); simpl; now rewrite H1.
Qed.

(** X19.  With the collection there, a call that returns gives one
    identifier for each document that has the text field: documents
    without it are skipped, and a document of many chunks still counts
    once. *)
Theorem script_load_one_id_per_document
    (fuel : nat) (uuid4 : nat -> str) (collection_names : list str)
    (cl : add_client) (documents : list dict) (collection_name text_field : str)
    (id_field : option str) (metadata_fields : option (list str))
    (chunk_size chunk_overlap batch_size : Z)
    (out : list str) (kept : store) :
  In collection_name collection_names ->
  load_documents fuel uuid4 collection_names cl documents collection_name
    text_field id_field metadata_fields chunk_size chunk_overlap batch_size
  = (Done out, kept) ->
  length out = length (filter (has_field text_field) documents).
Proof.
  intros Hin. unfold load_documents.
  destruct (in_dec str_eq_dec collection_name collection_names);
    [|contradiction].
  destruct (load_each fuel uuid4 cl text_field id_field metadata_fields
              chunk_size chunk_overlap batch_size documents start_progress)
    as [st [[f|]|]] eqn:Hrun; try discriminate.
  apply load_each_count in Hrun. simpl in Hrun.
  destruct (batch_points st); intros [= <- _]; exact Hrun.
Qed.

Lemma script_load_one_id_per_document_witness :
  length [lit "7"; lit "0"] =
  length (filter (has_field (lit "text"))
            [[(lit "text", VStr (lit "Hello world. This is a test."));
              (lit "id", VInt 7)];
             [(lit "title", VStr (lit "no text"))];
             [(lit "text", VStr (lit "short"))]]).
Proof.
  apply (script_load_one_id_per_document 30 decimal [lit "llm_documents"]
           (fun _ _ => false)
           [[(lit "text", VStr (lit "Hello world. This is a test."));
             (lit "id", VInt 7)];
            [(lit "title", VStr (lit "no text"))];
            [(lit "text", VStr (lit "short"))]]
           (lit "llm_documents") (lit "text") (Some (lit "id")) None 15 0 2
           [lit "7"; lit "0"] []).
  - left. reflexivity.
  - vm_compute. reflexivity.
Defined.

(** X20.  However the call ends, every stored point has its chunk as
    ["text"] of the payload, the length of the chunk as ["text_len"], a
    ["source"] (the document's, or "unknown"), and the ["doc_id"],
    ["chunk_idx"] and ["total_chunks"] that its identifier is made of. *)
Theorem script_load_stored_points
    (fuel : nat) (uuid4 : nat -> str) (collection_names : list str)
    (cl : add_client) (documents : list dict) (collection_name text_field : str)
    (id_field : option str) (metadata_fields : option (list str))
    (chunk_size chunk_overlap batch_size : Z) :
  Forall entry_ok
    (concat (snd (load_documents fuel uuid4 collection_names cl documents
                    collection_name text_field id_field metadata_fields
                    chunk_size chunk_overlap batch_size))).
Proof. apply stored_entries_ok. Qed.

End ScriptLoaderExtras.

(** ** [build_filter] and the way back from the store *)

Module FilterFacts.
Import PyDict Filters.

(** Conditions that are not usable leave the list being built as it is. *)
Lemma build_conditions_usable lib cs :
  forall conditions,
    build_conditions lib (filter usable cs) conditions =
    build_conditions lib cs conditions.
Proof.
  induction cs as [|c rest IH]; intros conditions; [reflexivity|].
  cbn [filter]. unfold usable at 1.
  destruct (cond_key c) as [key|] eqn:Hk;
    [|cbn [build_conditions]; rewrite Hk; apply IH].
  destruct (cond_match c) as [m|] eqn:Hm.
  - cbn [build_conditions]. rewrite Hk, Hm.
    destruct (match_value m) as [v|]; [|reflexivity].
    destruct (match_valid lib key v); [apply IH | reflexivity].
  - destruct (cond_range c) as [r|] eqn:Hr;
      cbn [build_conditions]; rewrite Hk, Hm, Hr; [|apply IH].
    destruct (range_valid lib key r); [apply IH | reflexivity].
Qed.

Lemma build_conditions_range lib cs :
  forall conditions,
    build_conditions lib (map without_shadowed_range cs) conditions =
    build_conditions lib cs conditions.
Proof.
  induction cs as [|c rest IH]; intros conditions; [reflexivity|].
  cbn [map build_conditions].
  unfold without_shadowed_range.
  destruct (cond_match c) as [m|] eqn:Hm;
    cbn [cond_key cond_match cond_range].
  - destruct (cond_key c) as [key|]; [|apply IH].
    destruct (match_value m) as [v|]; [|reflexivity].
    destruct (match_valid lib key v); [apply IH | reflexivity].
  - rewrite Hm. destruct (cond_key c) as [key|]; [|apply IH].
    destruct (cond_range c) as [r|]; [|apply IH].
    destruct (range_valid lib key r); [apply IH | reflexivity].
Qed.

Lemma build_clause_ext lib (f : list condition -> list condition) :
  (forall cs conditions,
      build_conditions lib (f cs) conditions =
      build_conditions lib cs conditions) ->
  forall clause,
    build_clause lib (option_map f clause) = build_clause lib clause.
Proof.
  intros Hf [cs|]; [|reflexivity]. simpl. now rewrite Hf.
Qed.

Lemma build_filter_ext lib (f : list condition -> list condition) :
  (forall cs conditions,
      build_conditions lib (f cs) conditions =
      build_conditions lib cs conditions) ->
  forall d, build_filter lib (on_clauses f d) = build_filter lib d.
Proof.
  intros Hf d. unfold build_filter, on_clauses. cbn [must should must_not].
  now rewrite !(build_clause_ext lib f Hf).
Qed.

Lemma build_conditions_unusable lib cs :
  Forall (fun c => usable c = false) cs ->
  forall conditions, build_conditions lib cs conditions = inr conditions.
Proof.
  induction 1 as [|c rest Hc _ IH]; intros conditions; [reflexivity|].
  cbn [build_conditions]. unfold usable in Hc.
  destruct (cond_key c); [|apply IH].
  destruct (cond_match c); [discriminate|].
  destruct (cond_range c); [discriminate | apply IH].
Qed.

End FilterFacts.

Section FilterExtras.
Import PyDict Filters FilterFacts.
Import LoadDocumentsLoad ScriptLoaderFacts.

(** X21.  Conditions without a ["key"], or with neither ["match"] nor
    ["range"], are passed over without an error: the filter built is the
    one built from the usable conditions alone. *)
Theorem build_filter_skips_unusable (lib : library) (d : filter_dict) :
  build_filter lib (on_clauses (filter usable) d) = build_filter lib d.
Proof. apply build_filter_ext. apply build_conditions_usable. Qed.

(** X22.  A filter dictionary none of whose conditions is usable gives the
    empty filter, with no clause at all, as the empty dictionary does. *)
Theorem build_filter_nothing_usable (lib : library) (d : filter_dict) :
  (forall cs, In (Some cs) [must d; should d; must_not d] ->
              Forall (fun c => usable c = false) cs) ->
  build_filter lib d =
  inr {| filter_must := None; filter_should := None;
         filter_must_not := None |}.
Proof.
  intros H.
  assert (Hclause : forall clause,
             In clause [must d; should d; must_not d] ->
             build_clause lib clause = inr None).
  { intros [cs|] Hin; [|reflexivity]. simpl.
    now rewrite build_conditions_unusable by (apply H; exact Hin). }
  unfold build_filter.
  rewrite !Hclause by (simpl; auto). reflexivity.
Qed.

Lemma build_filter_nothing_usable_witness :
  build_filter
    {| match_valid := fun _ _ => false; range_valid := fun _ _ => false |}
    {| must := Some [{| cond_key := None;
                        cond_match := Some {| match_value := Some (VStr (lit "website")) |};
                        cond_range := None |}];
       should := Some [{| cond_key := Some (VStr (lit "metadata.year"));
                          cond_match := None; cond_range := None |}];
       must_not := None |}
  = inr {| filter_must := None; filter_should := None;
           filter_must_not := None |}.
Proof.
  apply (build_filter_nothing_usable
    {| match_valid := fun _ _ => false; range_valid := fun _ _ => false |}
    {| must := Some [{| cond_key := None;
                        cond_match := Some {| match_value := Some (VStr (lit "website")) |};
                        cond_range := None |}];
       should := Some [{| cond_key := Some (VStr (lit "metadata.year"));
                          cond_match := None; cond_range := None |}];
       must_not := None |}).
  intros cs [H|[H|[H|[]]]]; try discriminate H; injection H as <-;
    repeat constructor.
Defined.

(** X23.  A condition that has both ["match"] and ["range"] is read as a
    match: its range plays no part in the filter built. *)
Theorem build_filter_match_before_range (lib : library) (d : filter_dict) :
  build_filter lib (on_clauses (map without_shadowed_range) d) =
  build_filter lib d.
Proof. apply build_filter_ext. apply build_conditions_range. Qed.

(** X24.  What [load_documents] of [load_documents.py] has stored comes
    back whole: for a search result that carries the identifier and the
    payload of a stored point, the context entry of
    [retrieve_for_llm_context] has the point's identifier, the source
    stored with it, and the chunk itself as content. *)
Theorem stored_chunk_is_retrieved
    (fuel : nat) (uuid4 : nat -> str) (collection_names : list str)
    (cl : add_client) (documents : list dict) (collection_name text_field : str)
    (id_field : option str) (metadata_fields : option (list str))
    (chunk_size chunk_overlap batch_size : Z) (e : entry) :
  In e (concat (snd (load_documents fuel uuid4 collection_names cl documents
                       collection_name text_field id_field metadata_fields
                       chunk_size chunk_overlap batch_size))) ->
  exists src,
    get (lit "source") (entry_payload e) = Some src /\
    Retriever.entries
      (process_results true
         [{| result_id := VStr (entry_id e);
             result_payload := Some (entry_payload e) |}])
    = [lit "Document ID: " ++ entry_id e ++ Retriever.nl
         ++ lit "Source: " ++ str_of src ++ Retriever.nl
         ++ lit "Content: " ++ entry_document e
         ++ Retriever.nl ++ Retriever.nl].
Proof.
  intros Hin.
  pose proof (stored_entries_ok fuel uuid4 collection_names cl documents
                collection_name text_field id_field metadata_fields
                chunk_size chunk_overlap batch_size) as Hall.
  rewrite Forall_forall in Hall.
  destruct (Hall e Hin) as (Htext & _ & Hsrc & _).
  destruct (get (lit "source") (entry_payload e)) as [src|] eqn:Hs;
    [|contradiction].
  exists src. split; [reflexivity|].
  unfold process_results, document_of. cbn [map result_payload result_id].
  destruct (entry_payload e) as [|kv payload] eqn:Hp; [discriminate|].
  cbn [Retriever.entries Retriever.doc_text].
  rewrite Htext. cbn [option_map str_of].
  unfold Retriever.doc_context, Retriever.id_of, Retriever.source_of.
  cbn [Retriever.doc_id Retriever.doc_payload Retriever.source].
  rewrite Hs. reflexivity.
Qed.

Lemma stored_chunk_is_retrieved_witness :
  exists src,
    get (lit "source")
      [(lit "doc_id", VStr (lit "7")); (lit "source", VStr (lit "unknown"));
       (lit "chunk_idx", VInt 0); (lit "total_chunks", VInt 1);
       (lit "text", VStr (lit "short")); (lit "text_len", VInt 5)]
    = Some src /\
    Retriever.entries
      (process_results true
         [{| result_id := VStr (lit "7");
             result_payload := Some
               [(lit "doc_id", VStr (lit "7"));
                (lit "source", VStr (lit "unknown"));
                (lit "chunk_idx", VInt 0); (lit "total_chunks", VInt 1);
                (lit "text", VStr (lit "short")); (lit "text_len", VInt 5)] |}])
    = [lit "Document ID: " ++ lit "7" ++ Retriever.nl
         ++ lit "Source: " ++ str_of src ++ Retriever.nl
         ++ lit "Content: " ++ lit "short"
         ++ Retriever.nl ++ Retriever.nl].
Proof.
  apply (stored_chunk_is_retrieved 5 decimal [lit "llm_documents"]
           (fun _ _ => true)
           [[(lit "text", VStr (lit "short")); (lit "id", VInt 7)]]
           (lit "llm_documents") (lit "text") (Some (lit "id")) None
           512 128 64
           {| entry_id := lit "7";
              entry_payload :=
                [(lit "doc_id", VStr (lit "7"));
                 (lit "source", VStr (lit "unknown"));
                 (lit "chunk_idx", VInt 0); (lit "total_chunks", VInt 1);
                 (lit "text", VStr (lit "short")); (lit "text_len", VInt 5)];
              entry_document := lit "short" |}).
  vm_compute. left. reflexivity.
Defined.

End FilterExtras.
